(** * INI parser: escape codec, line scanner and document store

    A shallow embedding of [ini::detail] and [ini::Parser] from
    [src/ini_parser.cpp], followed by the properties of the specification
    that concern them.

    Conventions of the embedding:
    - [std::string] is [string]; a [char] is an [ascii];
    - [std::unordered_map] is stdpp's [gmap]; the iteration order of
      [map_to_list] stands for the unspecified iteration order of the
      hash table;
    - [operator[]] of a map inserts a default value for a missing key,
      which is modelled by [index_section];
    - the file system is a finite map from paths to contents together
      with the set of paths that can be opened for writing;
    - loops over the characters of a string are left folds whose
      accumulator is the tuple of the loop's local variables. *)

From Stdlib Require Import Ascii String.
From stdpp Require Import gmap strings list fin_maps.

(** String concatenation computes by [simpl] in this development. *)
#[local] Arguments String.append !s1 s2 / : simpl nomatch.

(** ** Characters *)

Definition dquote : ascii := "034"%char.
Definition squote : ascii := "039"%char.
Definition backslash : ascii := "092"%char.
Definition newline : ascii := "010"%char.
Definition tab : ascii := "009"%char.
Definition carriage_return : ascii := "013"%char.

(** [std::isspace] in the default C locale: space and the range
    [\t \n \v \f \r]. *)
Definition isspace (ch : ascii) : bool :=
  let n := nat_of_ascii ch in
  (n =? 32) || ((9 <=? n) && (n <=? 13)).

(** A [for] loop over the characters of a string, threading the loop's
    variables. *)
Fixpoint string_fold {A : Type} (body : A → ascii → A) (s : string) (st : A) : A :=
  match s with
  | EmptyString => st
  | String ch rest => string_fold body rest (body st ch)
  end.

(** [s += ch] *)
Definition push_back (s : string) (ch : ascii) : string := s +:+ String ch "".

Module detail.

(** First erase of [trim]: everything before the first non-space. *)
Fixpoint erase_leading_space (s : string) : string :=
  match s with
  | EmptyString => ""
  | String ch rest => if isspace ch then erase_leading_space rest else s
  end.

(** [trim]: the second erase does the same search through reverse
    iterators. *)
Definition trim (s : string) : string :=
  String.rev (erase_leading_space (String.rev (erase_leading_space s))).

(** The [switch] of [unescape] on the character after a backslash. *)
Definition unescape_switch (ch : ascii) : ascii :=
  if Ascii.eqb ch dquote then dquote
  else if Ascii.eqb ch squote then squote
  else if Ascii.eqb ch backslash then backslash
  else if Ascii.eqb ch "n" then newline
  else if Ascii.eqb ch "t" then tab
  else if Ascii.eqb ch "r" then carriage_return
  else ch.

(** One iteration of the loop of [unescape]; the state is
    [(result, escaped)]. *)
Definition unescape_body (st : string * bool) (ch : ascii) : string * bool :=
  let '(result, escaped) := st in
  if escaped then (push_back result (unescape_switch ch), false)
  else if Ascii.eqb ch backslash then (result, true)
  else (push_back result ch, false).

Definition unescape_loop (s : string) (st : string * bool) : string * bool :=
  string_fold unescape_body s st.

Definition unescape (s : string) : string :=
  fst (unescape_loop s ("", false)).

(** The [switch] of [escape]: the text appended for one character. *)
Definition escape_switch (c : ascii) : string :=
  if Ascii.eqb c dquote then String backslash (String dquote "")
  else if Ascii.eqb c squote then String backslash (String squote "")
  else if Ascii.eqb c backslash then String backslash (String backslash "")
  else if Ascii.eqb c newline then String backslash "n"
  else if Ascii.eqb c tab then String backslash "t"
  else if Ascii.eqb c carriage_return then String backslash "r"
  else String c "".

Definition escape (s : string) : string :=
  string_fold (λ result c, result +:+ escape_switch c) s "".

End detail.

(** ** The [std::string] operations used by the parser *)

Definition empty (s : string) : bool :=
  match s with EmptyString => true | String _ _ => false end.

Definition front (s : string) : option ascii :=
  match s with EmptyString => None | String ch _ => Some ch end.

Fixpoint back (s : string) : option ascii :=
  match s with
  | EmptyString => None
  | String ch EmptyString => Some ch
  | String _ rest => back rest
  end.

(** [c == ch] for a character read from a possibly empty string. *)
Definition is_char (c : option ascii) (ch : ascii) : bool :=
  match c with Some x => Ascii.eqb x ch | None => false end.

(** [s.substr(pos, len)] and [s.substr(pos)], for [pos <= s.size()]. *)
Definition substr (pos len : nat) (s : string) : string := String.substring pos len s.

Definition substr_from (pos : nat) (s : string) : string :=
  String.substring pos (String.length s - pos) s.

(** [s.find(ch)]; [None] is [std::string::npos]. *)
Fixpoint find (ch : ascii) (s : string) : option nat :=
  match s with
  | EmptyString => None
  | String c rest => if Ascii.eqb c ch then Some 0 else S <$> find ch rest
  end.

(** [s.find_first_of(chars)]. *)
Fixpoint find_first_of (chars : list ascii) (s : string) : option nat :=
  match s with
  | EmptyString => None
  | String c rest =>
      if existsb (Ascii.eqb c) chars then Some 0 else S <$> find_first_of chars rest
  end.

(** The lines that successive calls of [std::getline] deliver: the text
    is cut at every newline, and a last line needs no newline. *)
Fixpoint getlines (text : string) : list string :=
  match text with
  | EmptyString => []
  | String ch rest =>
      if Ascii.eqb ch newline then "" :: getlines rest
      else match getlines rest with
           | [] => [String ch ""]
           | line :: lines => String ch line :: lines
           end
  end.

(** ** The parser *)

Inductive ErrorCode : Set :=
  | Success
  | FileNotFound
  | InvalidSection
  | InvalidLine
  | EmptyKey
  | DuplicateKey
  | FileWriteFailed
  | UnmatchedQuotes.

(** [Parser::Section] and [Parser::Config]. *)
Abbreviation SectionMap := (gmap string string).
Abbreviation Config := (gmap string (gmap string string)).

(** What the streams see of the file system: the files that can be opened
    for reading, with their contents, and the paths on which opening for
    writing fails.  A stream that did open is taken not to fail later. *)
Record FileSystem : Type := {
  files : gmap string string;
  unwritable : gset string
}.

Record Parser : Type := {
  config : Config;
  strict_comments_ : bool
}.

(** [explicit Parser(bool strict_comments = true)] *)
Definition new_parser (strict_comments : bool) : Parser :=
  {| config := ∅; strict_comments_ := strict_comments |}.

Definition default_parser : Parser := new_parser true.

(** [config[section]]: the map after the access, which holds an empty
    section where there was none, and the section found. *)
Definition index_section (cfg : Config) (section : string) : Config * SectionMap :=
  match cfg !! section with
  | Some pairs => (cfg, pairs)
  | None => (<[section := ∅]> cfg, ∅)
  end.

(** The outcome of one iteration of the [while] loop of [load]: go on
    with the next line, or return from [load]. *)
Inductive LineResult : Type :=
  | Continue (cfg : Config) (currentSection : string)
  | Return (e : ErrorCode) (cfg : Config).

(** The document as an iteration leaves it. *)
Definition result_config (r : LineResult) : Config :=
  match r with
  | Continue cfg _ => cfg
  | Return _ cfg => cfg
  end.

Definition is_comment_char (ch : ascii) : bool :=
  Ascii.eqb ch ";" || Ascii.eqb ch "#".

(** The [for] loop that looks for [commentPos].  [line] is the rest of
    the line from index [i] on, [prev] is [line[i - 1]] when [i > 0]. *)
Fixpoint comment_scan (strict : bool) (line : string) (i : nat) (prev : option ascii)
    (inside_single_quote inside_double_quote : bool) : option nat :=
  match line with
  | EmptyString => None
  | String ch rest =>
      let toggle_double := Ascii.eqb ch dquote && negb inside_single_quote in
      let toggle_single := Ascii.eqb ch squote && negb inside_double_quote in
      let inside_double_quote :=
        if toggle_double then negb inside_double_quote else inside_double_quote in
      let inside_single_quote :=
        if toggle_double then inside_single_quote
        else if toggle_single then negb inside_single_quote else inside_single_quote in
      if is_comment_char ch && negb inside_single_quote && negb inside_double_quote then
        if strict && (0 <? i) && negb (from_option isspace true prev)
        then comment_scan strict rest (S i) (Some ch) inside_single_quote inside_double_quote
        else Some i
      else comment_scan strict rest (S i) (Some ch) inside_single_quote inside_double_quote
  end.

Definition commentPos (strict : bool) (line : string) : option nat :=
  comment_scan strict line 0 None false false.

(** Lines 106 to 129 of [load]: the line that is left after trimming and
    comment stripping, or [None] when the loop skips the line. *)
Definition logical_line (strict : bool) (raw : string) : option string :=
  let line := detail.trim raw in
  if empty line || is_char (front line) ";" || is_char (front line) "#" then None
  else
    let line :=
      match commentPos strict line with
      | Some pos => detail.trim (substr 0 pos line)
      | None => line
      end in
    if empty line then None else Some line.

Definition is_header (line : string) : bool :=
  is_char (front line) "[" && is_char (back line) "]".

Definition is_quote (ch : ascii) : bool :=
  Ascii.eqb ch dquote || Ascii.eqb ch squote.

(** Lines 146 to 152: a value that opens with a quote is checked and
    decoded, any other is kept. *)
Definition decode_value (value : string) : option string :=
  match front value with
  | Some quote =>
      if is_quote quote then
        if (String.length value <? 2) || negb (is_char (back value) quote) then None
        else Some (detail.unescape (substr 1 (String.length value - 2) value))
      else Some value
  | None => Some value
  end.

(** Lines 154 to 158. *)
Definition store_entry (cfg : Config) (currentSection key value : string) : LineResult :=
  let '(cfg, pairs) := index_section cfg currentSection in
  match pairs !! key with
  | Some _ => Return DuplicateKey cfg
  | None => Continue (<[currentSection := <[key := value]> pairs]> cfg) currentSection
  end.

(** Lines 139 to 158, [pos] being the position of the separator. *)
Definition load_key_value (cfg : Config) (currentSection line : string) (pos : nat) : LineResult :=
  let key := detail.trim (substr 0 pos line) in
  let value := detail.trim (substr_from (pos + 1) line) in
  if empty key then Return EmptyKey cfg
  else match decode_value value with
       | None => Return UnmatchedQuotes cfg
       | Some value => store_entry cfg currentSection key value
       end.

(** Lines 136 to 158: a line that is no header. *)
Definition load_entry (cfg : Config) (currentSection line : string) : LineResult :=
  match find "=" line with
  | None => Return InvalidLine cfg
  | Some pos => load_key_value cfg currentSection line pos
  end.

(** Lines 131 to 159. *)
Definition load_logical (cfg : Config) (currentSection line : string) : LineResult :=
  if is_header line then
    let currentSection := detail.trim (substr 1 (String.length line - 2) line) in
    if empty currentSection then Return InvalidSection cfg
    else Continue cfg currentSection
  else load_entry cfg currentSection line.

(** The body of the [while] loop. *)
Definition load_line (strict : bool) (cfg : Config) (currentSection raw : string) : LineResult :=
  match logical_line strict raw with
  | None => Continue cfg currentSection
  | Some line => load_logical cfg currentSection line
  end.

(** The [while] loop over the lines of the file. *)
Fixpoint load_lines (strict : bool) (lines : list string) (cfg : Config)
    (currentSection : string) : LineResult :=
  match lines with
  | [] => Continue cfg currentSection
  | raw :: lines =>
      match load_line strict cfg currentSection raw with
      | Continue cfg currentSection => load_lines strict lines cfg currentSection
      | Return e cfg => Return e cfg
      end
  end.

(** [load] once the file is open: [config.clear()], then the loop. *)
Definition load_text (strict : bool) (text : string) : ErrorCode * Config :=
  match load_lines strict (getlines text) ∅ "" with
  | Continue cfg _ => (Success, cfg)
  | Return e cfg => (e, cfg)
  end.

Definition load (fs : FileSystem) (filename : string) (p : Parser) : ErrorCode * Parser :=
  match files fs !! filename with
  | None => (FileNotFound, p)
  | Some text =>
      let '(e, cfg) := load_text (strict_comments_ p) text in
      (e, {| config := cfg; strict_comments_ := strict_comments_ p |})
  end.

Definition get (p : Parser) (section key defaultValue : string) : string :=
  match config p !! section with
  | Some pairs =>
      match pairs !! key with
      | Some value => value
      | None => defaultValue
      end
  | None => defaultValue
  end.

Definition set (p : Parser) (section key value : string) : ErrorCode * Parser :=
  let trimmedKey := detail.trim key in
  if empty trimmedKey then (EmptyKey, p)
  else
    let trimmedSection := detail.trim section in
    match find_first_of ["["; "]"]%char trimmedSection with
    | Some _ => (InvalidSection, p)
    | None =>
        let '(cfg, pairs) := index_section (config p) trimmedSection in
        (Success,
         {| config := <[trimmedSection := <[trimmedKey := value]> pairs]> cfg;
            strict_comments_ := strict_comments_ p |})
    end.

(** The characters that make [save] quote a value. *)
Definition quoting_chars : list ascii :=
  [" "%char; ";"%char; "#"%char; dquote; newline; tab; carriage_return].

Definition needsQuotes (value : string) : bool :=
  match find_first_of quoting_chars value with Some _ => true | None => false end.

(** What the inner loops of [save] write for one pair and for a section. *)
Definition write_pair (kv : string * string) : string :=
  let '(key, value) := kv in
  key +:+ "=" +:+
  (if needsQuotes value
   then String dquote (detail.escape value) +:+ String dquote ""
   else value) +:+
  String newline "".

Definition concat_strings (l : list string) : string :=
  foldr String.append "" l.

Definition write_pairs (pairs : SectionMap) : string :=
  concat_strings (write_pair <$> map_to_list pairs) +:+ String newline "".

Definition write_section (entry : string * SectionMap) : string :=
  let '(section, pairs) := entry in
  if empty section then ""
  else "[" +:+ section +:+ "]" +:+ String newline "" +:+ write_pairs pairs.

(** Everything [save] sends to the stream. *)
Definition save_text (cfg : Config) : string :=
  (match cfg !! "" with
   | Some pairs => if decide (pairs = ∅) then "" else write_pairs pairs
   | None => ""
   end) +:+
  concat_strings (write_section <$> map_to_list cfg).

Definition save (fs : FileSystem) (filename : string) (p : Parser) : ErrorCode * FileSystem :=
  if decide (filename ∈ unwritable fs) then (FileWriteFailed, fs)
  else (Success,
        {| files := <[filename := save_text (config p)]> (files fs);
           unwritable := unwritable fs |}).

(** [data()] *)
Definition data (p : Parser) : Config := config p.

(** ** Notions used to state the properties *)

(** The flag [escaped] of [unescape] once the loop has consumed [s]: it
    is [false] exactly when a backslash that follows [s] is not itself
    escaped. *)
Definition escaped_after (s : string) : bool :=
  snd (detail.unescape_loop s ("", false)).

(** [s] contains the character [ch]. *)
Definition contains (s : string) (ch : ascii) : Prop :=
  ∃ i, String.get i s = Some ch.

(** The value stored under a key of a section, if any. *)
Definition lookup_entry (cfg : Config) (section key : string) : option string :=
  cfg !! section ≫= (.!! key).

(** Every section of the document holds at least one pair. *)
Definition sections_nonempty (cfg : Config) : Prop :=
  ∀ section pairs, cfg !! section = Some pairs → pairs ≠ ∅.

(** The key and the decoded value that a raw line assigns, when the line
    is a well-formed key-value line. *)
Definition line_entry (strict : bool) (raw : string) : option (string * string) :=
  match logical_line strict raw with
  | None => None
  | Some line =>
      if is_header line then None
      else match find "=" line with
           | None => None
           | Some pos =>
               let key := detail.trim (substr 0 pos line) in
               if empty key then None
               else match decode_value (detail.trim (substr_from (pos + 1) line)) with
                    | None => None
                    | Some value => Some (key, value)
                    end
           end
  end.

(** Following the words of the specification, not the source: the
    position of the first [=] that lies outside single and double quotes,
    the quote state being tracked as the comment scanner tracks it. *)
Fixpoint spec_unquoted_equals (line : string) (i : nat)
    (inside_single_quote inside_double_quote : bool) : option nat :=
  match line with
  | EmptyString => None
  | String ch rest =>
      if Ascii.eqb ch dquote && negb inside_single_quote
      then spec_unquoted_equals rest (S i) inside_single_quote (negb inside_double_quote)
      else if Ascii.eqb ch squote && negb inside_double_quote
      then spec_unquoted_equals rest (S i) (negb inside_single_quote) inside_double_quote
      else if Ascii.eqb ch "=" && negb inside_single_quote && negb inside_double_quote
      then Some i
      else spec_unquoted_equals rest (S i) inside_single_quote inside_double_quote
  end.

(** A file system that holds nothing, and one that holds a single file. *)
Definition no_files : FileSystem := {| files := ∅; unwritable := ∅ |}.

Definition single_file (filename text : string) : FileSystem :=
  {| files := {[ filename := text ]}; unwritable := ∅ |}.

(** [save] to a path of an empty file system, then [load] of that path
    into a freshly constructed parser of the same comment mode. *)
Definition save_then_load (filename : string) (p : Parser) : ErrorCode * ErrorCode * Parser :=
  let '(saved, fs) := save no_files filename p in
  let '(loaded, q) := load fs filename (new_parser (strict_comments_ p)) in
  (saved, loaded, q).

(** The calls a client can make on a parser, and a run of such calls
    against a file system. *)
Inductive Call : Type :=
  | CallLoad (filename : string)
  | CallSet (section key value : string)
  | CallSave (filename : string).

Definition call (c : Call) (st : FileSystem * Parser) : FileSystem * Parser :=
  let '(fs, p) := st in
  match c with
  | CallLoad filename => (fs, snd (load fs filename p))
  | CallSet section key value => (fs, snd (set p section key value))
  | CallSave filename => (snd (save fs filename p), p)
  end.

Definition run (calls : list Call) (st : FileSystem * Parser) : FileSystem * Parser :=
  foldl (λ st c, call c st) st calls.

(** The text of a file given by its lines, each ended by a newline. *)
Definition file_of_lines (lines : list string) : string :=
  concat_strings ((λ line, line +:+ String newline "") <$> lines).

Definition quoted (s : string) : string := String dquote s +:+ String dquote "".

(** ** The remaining code of the parser, and notions for its properties *)

(** [Parser::errorToString]; the [default] branch of its [switch] is out
    of reach of the eight codes. *)
Definition errorToString (error : ErrorCode) : string :=
  match error with
  | Success => "Success"
  | FileNotFound => "File not found"
  | InvalidSection => "Invalid section name"
  | InvalidLine => "Invalid line (missing '=')"
  | EmptyKey => "Empty key"
  | DuplicateKey => "Duplicate key in section"
  | FileWriteFailed => "Failed to write to file"
  | UnmatchedQuotes => "Unmatched quotes in value"
  end.

(** Every character of [s] satisfies [P]. *)
Fixpoint all_chars (P : ascii → bool) (s : string) : bool :=
  match s with
  | EmptyString => true
  | String ch rest => P ch && all_chars P rest
  end.

(** [s] does not begin, respectively end, with a whitespace character. *)
Definition starts_clean (s : string) : bool :=
  match front s with Some ch => negb (isspace ch) | None => true end.

Definition ends_clean (s : string) : bool :=
  match back s with Some ch => negb (isspace ch) | None => true end.

(** The characters that [escape] never leaves in its output. *)
Definition is_line_break (ch : ascii) : bool :=
  Ascii.eqb ch newline || Ascii.eqb ch tab || Ascii.eqb ch carriage_return.

(** No quote character of [s] stands bare: each one follows a backslash
    that escapes it.  [escaped] tells whether the character before the
    rest was such a backslash. *)
Fixpoint quotes_escaped (escaped : bool) (s : string) : bool :=
  match s with
  | EmptyString => true
  | String ch rest =>
      if escaped then quotes_escaped false rest
      else if Ascii.eqb ch backslash then quotes_escaped true rest
      else negb (is_quote ch) && quotes_escaped false rest
  end.

(** The errors that parsing a line can raise. *)
Definition is_parse_error (e : ErrorCode) : bool :=
  match e with
  | InvalidSection | InvalidLine | EmptyKey | DuplicateKey | UnmatchedQuotes => true
  | Success | FileNotFound | FileWriteFailed => false
  end.

(** Every section name of the document is as [trim] leaves it, and every
    key is so too and is not empty. *)
Definition names_trimmed (cfg : Config) : Prop :=
  ∀ section pairs, cfg !! section = Some pairs →
    detail.trim section = section ∧
    ∀ key value, pairs !! key = Some value → detail.trim key = key ∧ key ≠ "".

(** The document with [value] stored under [key] of [section]. *)
Definition put_entry (cfg : Config) (section key value : string) : Config :=
  <[section := <[key := value]> (default ∅ (cfg !! section))]> cfg.

(** ** Documents that [save] and [load] carry unchanged *)

(** The characters of a plain name: no whitespace, no comment or quote
    character, no [=] and no bracket. *)
Definition name_char (ch : ascii) : bool :=
  negb (isspace ch) && negb (is_comment_char ch) && negb (is_quote ch) &&
  negb (Ascii.eqb ch "=") && negb (Ascii.eqb ch "[") && negb (Ascii.eqb ch "]").

Definition plain_name (s : string) : bool :=
  negb (empty s) && all_chars name_char s.

(** The characters of a value that can stand unquoted. *)
Definition bare_char (ch : ascii) : bool :=
  negb (isspace ch) && negb (is_comment_char ch) && negb (is_quote ch).

Definition no_dquote (s : string) : bool :=
  all_chars (λ ch, negb (Ascii.eqb ch dquote)) s.

(** A value that [save] quotes must hold no double quote; one that it
    leaves unquoted must be made of bare characters. *)
Definition portable_value (value : string) : bool :=
  if needsQuotes value then no_dquote value else all_chars bare_char value.

(** Every section holds a pair, the names of the sections (the global
    one apart) and the keys are plain, and the values are portable. *)
Definition portable_pairs (pairs : SectionMap) : bool :=
  negb (bool_decide (pairs = ∅)) &&
  forallb (λ kv, plain_name kv.1 && portable_value kv.2) (map_to_list pairs).

Definition portable (cfg : Config) : bool :=
  forallb (λ entry, (empty entry.1 || plain_name entry.1) && portable_pairs entry.2)
          (map_to_list cfg).

(** The value as [save] writes it, and the lines that [save] writes:
    one for a pair, those of the pairs of a section with the blank line
    that ends them, those of a named section, and those of the file. *)
Definition written_value (value : string) : string :=
  if needsQuotes value
  then String dquote (detail.escape value) +:+ String dquote ""
  else value.

Definition entry_line (kv : string * string) : string :=
  kv.1 +:+ "=" +:+ written_value kv.2.

Definition header_line (section : string) : string := "[" +:+ section +:+ "]".

Definition pair_lines (pairs : SectionMap) : list string :=
  (entry_line <$> map_to_list pairs) ++ [""].

Definition section_lines (entry : string * SectionMap) : list string :=
  if empty entry.1 then [] else header_line entry.1 :: pair_lines entry.2.

Definition global_lines (cfg : Config) : list string :=
  match cfg !! "" with
  | Some pairs => if decide (pairs = ∅) then [] else pair_lines pairs
  | None => []
  end.

Definition save_lines (cfg : Config) : list string :=
  global_lines cfg ++ concat (section_lines <$> map_to_list cfg).

(** [portable], spelled out on the lookups of the document. *)
Definition portable_entries (cfg : Config) : Prop :=
  ∀ section pairs, cfg !! section = Some pairs →
    pairs ≠ ∅ ∧
    (section = "" ∨ plain_name section = true) ∧
    ∀ key value, pairs !! key = Some value →
      plain_name key = true ∧ portable_value value = true.

(** What the loop of [save] over the sections amounts to for [load]:
    every named section is stored whole. *)
Definition store_section (cfg : Config) (entry : string * SectionMap) : Config :=
  if empty entry.1 then cfg else <[entry.1 := entry.2]> cfg.

(** The arguments of a [set] that keeps a document portable, and a run
    of [set] calls. *)
Definition plain_arguments (call : string * string * string) : bool :=
  let '(section, key, value) := call in
  (empty section || plain_name section) && plain_name key && portable_value value.

Definition set_all (p : Parser) (calls : list (string * string * string)) : Parser :=
  foldl (λ p '(section, key, value), (set p section key value).2) p calls.

(** ** Facts about strings and folds *)

Lemma append_empty_r (s : string) : s +:+ "" = s.
Proof. induction s as [|c s IH]; simpl; [done | by f_equal]. Qed.

Lemma append_assoc (a b c : string) : (a +:+ b) +:+ c = a +:+ (b +:+ c).
Proof. induction a as [|x a IH]; simpl; [done | by f_equal]. Qed.

Section codec.
Import detail.

Lemma escape_fold_prefix (s r : string) :
  string_fold (λ result c, result +:+ escape_switch c) s r = r +:+ escape s.
Proof.
  revert r. induction s as [|c s IH]; intros r.
  - simpl. by rewrite append_empty_r.
  - unfold escape. simpl. rewrite (IH (r +:+ _)), (IH (escape_switch c)).
    by rewrite append_assoc.
Qed.

Lemma escape_cons (c : ascii) (s : string) :
  escape (String c s) = escape_switch c +:+ escape s.
Proof. unfold escape at 1. simpl. apply escape_fold_prefix. Qed.

Lemma unescape_loop_app (a b : string) (st : string * bool) :
  unescape_loop (a +:+ b) st = unescape_loop b (unescape_loop a st).
Proof.
  revert st. induction a as [|c a IH]; intros st; [done|].
  unfold unescape_loop in *. simpl. apply IH.
Qed.

(** Decoding the escape of one character, from the unescaped state,
    appends exactly that character and returns to the unescaped state. *)
Lemma unescape_escape_switch (c : ascii) (r : string) :
  unescape_loop (escape_switch c) (r, false) = (push_back r c, false).
Proof.
  unfold escape_switch.
  destruct (Ascii.eqb_spec c dquote) as [->|?]; [reflexivity|].
  destruct (Ascii.eqb_spec c squote) as [->|?]; [reflexivity|].
  destruct (Ascii.eqb_spec c backslash) as [->|Hne]; [reflexivity|].
  destruct (Ascii.eqb_spec c newline) as [->|?]; [reflexivity|].
  destruct (Ascii.eqb_spec c tab) as [->|?]; [reflexivity|].
  destruct (Ascii.eqb_spec c carriage_return) as [->|?]; [reflexivity|].
  unfold unescape_loop. simpl.
  by destruct (Ascii.eqb_spec c backslash).
Qed.

Lemma unescape_loop_escape (s r : string) :
  unescape_loop (escape s) (r, false) = (r +:+ s, false).
Proof.
  revert r. induction s as [|c s IH]; intros r.
  - simpl. by rewrite append_empty_r.
  - rewrite escape_cons, unescape_loop_app, unescape_escape_switch, IH.
    unfold push_back. by rewrite append_assoc.
Qed.
End codec.

(** ** The escape codec *)

(** The table of [escape]: each of the six special characters becomes a
    backslash and one letter that [unescape] maps back, every other
    character is copied. *)
Lemma escape_table (c : ascii) :
  detail.escape (String c "") =
    if Ascii.eqb c dquote then String backslash (String dquote "")
    else if Ascii.eqb c squote then String backslash (String squote "")
    else if Ascii.eqb c backslash then String backslash (String backslash "")
    else if Ascii.eqb c newline then String backslash "n"
    else if Ascii.eqb c tab then String backslash "t"
    else if Ascii.eqb c carriage_return then String backslash "r"
    else String c "".
Proof. reflexivity. Qed.

(** C2: decoding the encoding of any string gives the string back:
    [unescape (escape s) = s]. *)
Theorem unescape_escape (s : string) : detail.unescape (detail.escape s) = s.
Proof. unfold detail.unescape. by rewrite unescape_loop_escape. Qed.

(** A backslash read in the unescaped state only raises the flag. *)
Lemma unescape_loop_trailing_backslash (p : string) :
  escaped_after p = false →
  detail.unescape_loop (push_back p backslash) ("", false) = (detail.unescape p, true).
Proof.
  unfold escaped_after, detail.unescape, push_back. intros He.
  rewrite unescape_loop_app.
  destruct (detail.unescape_loop p ("", false)) as [r e]. simpl in *. by subst e.
Qed.

(** C3, as the code has it: when the input ends in a backslash that is
    not itself escaped, that backslash is dropped; the output is the
    decoding of the input without it, and the loop ends with the flag
    [escaped] raised and nothing reported. *)
Theorem unescape_drops_trailing_backslash (p : string) :
  escaped_after p = false →
  detail.unescape (push_back p backslash) = detail.unescape p ∧
  escaped_after (push_back p backslash) = true.
Proof.
  intros He. unfold detail.unescape at 1, escaped_after at 1.
  by rewrite (unescape_loop_trailing_backslash p He).
Qed.

Lemma unescape_drops_trailing_backslash_witness :
  escaped_after "abc" = false ∧
  detail.unescape (push_back "abc" backslash) = detail.unescape "abc" ∧
  escaped_after (push_back "abc" backslash) = true.
Proof.
  split; [reflexivity|].
  apply (unescape_drops_trailing_backslash "abc"). reflexivity.
Defined.

(** C3 as stated fails: the input [abc\] ends in an unescaped backslash,
    and its decoding is [abc], whose last character is [c]. *)
Lemma unescape_trailing_backslash_lost :
  escaped_after "abc" = false ∧
  detail.unescape (push_back "abc" backslash) = "abc" ∧
  back (detail.unescape (push_back "abc" backslash)) = Some "c"%char.
Proof. repeat split; reflexivity. Qed.

(** ** The separator of a key-value line *)

Lemma find_Some (ch : ascii) (s : string) (pos : nat) :
  find ch s = Some pos →
  String.get pos s = Some ch ∧ ∀ j, j < pos → String.get j s ≠ Some ch.
Proof.
  revert pos. induction s as [|c s IH]; intros pos; simpl; [done|].
  destruct (Ascii.eqb_spec c ch) as [->|Hne].
  - intros [= <-]. split; [done | lia].
  - destruct (find ch s) as [n|] eqn:Hf; simpl; [|done].
    intros [= <-]. destruct (IH n eq_refl) as [Hget Hfirst].
    split; [done|]. intros [|j] Hj; simpl; [congruence | apply Hfirst; lia].
Qed.

Lemma find_None (ch : ascii) (s : string) :
  find ch s = None → ∀ j, String.get j s ≠ Some ch.
Proof.
  induction s as [|c s IH]; simpl; [by intros _ []|].
  destruct (Ascii.eqb_spec c ch) as [->|Hne]; [done|].
  destruct (find ch s) as [n|]; simpl; [done|].
  intros _ [|j]; simpl; [congruence | by apply IH].
Qed.

(** [find] is decided by where the character first occurs. *)
Lemma find_first (ch : ascii) (s : string) (pos : nat) :
  String.get pos s = Some ch →
  (∀ j, j < pos → String.get j s ≠ Some ch) →
  find ch s = Some pos.
Proof.
  intros Hget Hfirst. destruct (find ch s) as [n|] eqn:Hf.
  - destruct (find_Some _ _ _ Hf) as [Hn Hbefore].
    destruct (lt_eq_lt_dec n pos) as [[Hlt| ->]|Hgt]; [|done|].
    + by destruct (Hfirst n Hlt).
    + by destruct (Hbefore pos Hgt).
  - by destruct (find_None _ _ Hf pos).
Qed.

Lemma find_absent (ch : ascii) (s : string) :
  (∀ j, String.get j s ≠ Some ch) → find ch s = None.
Proof.
  intros Hno. destruct (find ch s) as [n|] eqn:Hf; [|done].
  destruct (find_Some _ _ _ Hf) as [Hn _]. by destruct (Hno n).
Qed.

Lemma store_entry_not_invalid_line (cfg cfg' : Config) (section key value : string) :
  store_entry cfg section key value ≠ Return InvalidLine cfg'.
Proof.
  unfold store_entry. destruct (index_section cfg section) as [c pairs].
  by destruct (pairs !! key).
Qed.

Lemma load_key_value_not_invalid_line (cfg cfg' : Config) (section line : string) (pos : nat) :
  load_key_value cfg section line pos ≠ Return InvalidLine cfg'.
Proof.
  unfold load_key_value. destruct (empty _); [done|].
  destruct (decode_value _); [apply store_entry_not_invalid_line | done].
Qed.

(** C4, as the code has it: the separator of a line that is neither
    skipped nor a header is the first [=] of the line, quoted or not.
    Without any [=] the load returns [InvalidLine] and leaves the
    document as it was; with one, the key is what precedes the first [=],
    the raw value what follows it, and [InvalidLine] is not returned. *)
Theorem load_splits_at_first_equals (strict : bool) (cfg : Config)
    (currentSection raw line : string) :
  logical_line strict raw = Some line →
  is_header line = false →
  ((∀ j, String.get j line ≠ Some "="%char) →
     load_line strict cfg currentSection raw = Return InvalidLine cfg) ∧
  (∀ pos, String.get pos line = Some "="%char →
     (∀ j, j < pos → String.get j line ≠ Some "="%char) →
     load_line strict cfg currentSection raw = load_key_value cfg currentSection line pos ∧
     load_line strict cfg currentSection raw ≠ Return InvalidLine cfg).
Proof.
  intros Hline Hhdr. unfold load_line, load_logical, load_entry.
  rewrite Hline, Hhdr. split.
  - intros Hno. by rewrite (find_absent _ _ Hno).
  - intros pos Hget Hfirst. rewrite (find_first _ _ _ Hget Hfirst).
    split; [done | apply load_key_value_not_invalid_line].
Qed.

Lemma load_splits_at_first_equals_witness :
  load_line true ∅ "" "a=b=c" = load_key_value ∅ "" "a=b=c" 1 ∧
  load_line true ∅ "" "a=b=c" ≠ Return InvalidLine ∅.
Proof.
  apply (load_splits_at_first_equals true ∅ "" "a=b=c" "a=b=c"); [reflexivity..| |].
  - reflexivity.
  - intros [|j] Hj; [done | lia].
Defined.

(** C4 as stated fails.  The line [QaEbQ] (Q a double quote, E the equals
    sign) has no [=] outside quotes, yet it loads, with key [Qa] and
    value [bQ]; in the line [QaEbQEc] the first unquoted [=] is at index
    5, yet the split is at index 2, inside the quotes. *)
Lemma load_splits_inside_quotes :
  let quoted := String dquote "a=b" +:+ String dquote "" in
  let assigned := quoted +:+ "=c" in
  logical_line true quoted = Some quoted ∧
  is_header quoted = false ∧
  spec_unquoted_equals quoted 0 false false = None ∧
  load_line true ∅ "" quoted =
    Continue {[ "" := {[ String dquote "a" := "b" +:+ String dquote "" ]} ]} "" ∧
  logical_line true assigned = Some assigned ∧
  spec_unquoted_equals assigned 0 false false = Some 5 ∧
  find "=" assigned = Some 2 ∧
  load_line true ∅ "" assigned =
    Continue {[ "" := {[ String dquote "a" := "b" +:+ String dquote "=c" ]} ]} "".
Proof. vm_compute. repeat split; reflexivity. Qed.

(** ** Comment policies *)

(** C5: for the line [key=value#tag], a parser in strict mode (the
    default) records the value [value#tag], a parser in relaxed mode
    records [value]. *)
Theorem strict_and_relaxed_comments (filename : string) :
  let fs := single_file filename "key=value#tag" in
  load fs filename default_parser =
    (Success, {| config := {[ "" := {[ "key" := "value#tag" ]} ]};
                 strict_comments_ := true |}) ∧
  get (snd (load fs filename default_parser)) "" "key" "" = "value#tag" ∧
  load fs filename (new_parser false) =
    (Success, {| config := {[ "" := {[ "key" := "value" ]} ]};
                 strict_comments_ := false |}) ∧
  get (snd (load fs filename (new_parser false))) "" "key" "" = "value".
Proof.
  intros fs. unfold load, fs, single_file. simpl.
  rewrite lookup_singleton_eq.
  repeat split; vm_compute; reflexivity.
Qed.

(** ** Storing entries *)

Lemma index_section_other (cfg : Config) (section other : string) :
  other ≠ section → (index_section cfg section).1 !! other = cfg !! other.
Proof.
  intros Hne. unfold index_section. destruct (cfg !! section); simpl; [done|].
  by rewrite lookup_insert_ne.
Qed.

Lemma index_section_entry (cfg : Config) (section key : string) :
  (index_section cfg section).2 !! key = lookup_entry cfg section key.
Proof.
  unfold index_section, lookup_entry. by destruct (cfg !! section).
Qed.

(** A key that the section already holds stops the load; the document
    is the one before the line. *)
Lemma store_entry_duplicate (cfg : Config) (section key value old : string) :
  lookup_entry cfg section key = Some old →
  store_entry cfg section key value = Return DuplicateKey cfg.
Proof.
  unfold store_entry, lookup_entry, index_section. intros H.
  destruct (cfg !! section) as [pairs|]; simpl in *; [|done]. by rewrite H.
Qed.

Lemma store_entry_continue (cfg cfg' : Config) (section section' key value : string) :
  store_entry cfg section key value = Continue cfg' section' →
  section' = section ∧ lookup_entry cfg section key = None ∧
  cfg' = <[section := <[key := value]> (index_section cfg section).2]>
           (index_section cfg section).1.
Proof.
  unfold store_entry. rewrite <- index_section_entry.
  destruct (index_section cfg section) as [c pairs]. simpl.
  destruct (pairs !! key); [done|]. by intros [= <- <-].
Qed.

Lemma store_entry_return (cfg cfg' : Config) (section key value : string) (e : ErrorCode) :
  store_entry cfg section key value = Return e cfg' →
  e = DuplicateKey ∧ cfg' = cfg ∧ is_Some (lookup_entry cfg section key).
Proof.
  unfold store_entry, index_section, lookup_entry.
  destruct (cfg !! section) as [pairs|]; simpl.
  - destruct (pairs !! key) eqn:Hk; [|done]. intros [= <- <-]. eauto.
  - by rewrite lookup_empty.
Qed.

Lemma store_entry_keeps (cfg cfg' : Config) (section section' key value : string)
    (s k v : string) :
  store_entry cfg section key value = Continue cfg' section' →
  lookup_entry cfg s k = Some v → lookup_entry cfg' s k = Some v.
Proof.
  intros Hst Hold. destruct (store_entry_continue _ _ _ _ _ _ Hst) as (-> & Hnew & ->).
  unfold lookup_entry. destruct (decide (s = section)) as [->|Hs].
  - rewrite lookup_insert_eq. simpl.
    destruct (decide (k = key)) as [->|Hk]; [congruence|].
    rewrite lookup_insert_ne by done. by rewrite index_section_entry.
  - rewrite lookup_insert_ne by done. by rewrite index_section_other.
Qed.

(** ** One line of the file *)

(** An iteration leaves the document alone, or returns an error without
    touching it, or stores one entry under the current section. *)
Lemma load_line_cases (strict : bool) (cfg : Config) (currentSection raw : string) :
  (∃ section, load_line strict cfg currentSection raw = Continue cfg section) ∨
  (∃ e, load_line strict cfg currentSection raw = Return e cfg) ∨
  (∃ key value, load_line strict cfg currentSection raw =
                  store_entry cfg currentSection key value).
Proof.
  unfold load_line. destruct (logical_line strict raw) as [line|]; [|eauto].
  unfold load_logical. destruct (is_header line).
  - destruct (empty _); eauto.
  - unfold load_entry. destruct (find "=" line) as [pos|]; [|eauto].
    unfold load_key_value. destruct (empty _); [eauto|].
    destruct (decode_value _); eauto.
Qed.

Lemma load_line_entry (strict : bool) (cfg : Config) (currentSection raw key value : string) :
  line_entry strict raw = Some (key, value) →
  load_line strict cfg currentSection raw = store_entry cfg currentSection key value.
Proof.
  unfold line_entry, load_line, load_logical, load_entry, load_key_value.
  destruct (logical_line strict raw) as [line|]; [|done].
  destruct (is_header line); [done|].
  destruct (find "=" line) as [pos|]; [|done].
  destruct (empty _); [done|].
  destruct (decode_value _); [|done]. by intros [= <- <-].
Qed.

Lemma load_line_keeps (strict : bool) (cfg cfg' : Config) (section section' raw : string)
    (s k v : string) :
  load_line strict cfg section raw = Continue cfg' section' →
  lookup_entry cfg s k = Some v → lookup_entry cfg' s k = Some v.
Proof.
  intros Hstep Hold.
  destruct (load_line_cases strict cfg section raw) as [[x Hx]|[[e He]|(key & value & Hkv)]].
  - rewrite Hx in Hstep. by injection Hstep as <- _.
  - by rewrite He in Hstep.
  - rewrite Hkv in Hstep. eapply store_entry_keeps; eauto.
Qed.

(** ** The loop over the lines *)

Lemma load_lines_app (strict : bool) (before after : list string) (cfg : Config)
    (section : string) :
  load_lines strict (before ++ after) cfg section =
    match load_lines strict before cfg section with
    | Continue cfg' section' => load_lines strict after cfg' section'
    | Return e cfg' => Return e cfg'
    end.
Proof.
  revert cfg section. induction before as [|raw before IH]; intros cfg section; [done|].
  simpl. destruct (load_line strict cfg section raw); [apply IH | done].
Qed.

Lemma load_lines_keeps (strict : bool) (lines : list string) (cfg cfg' : Config)
    (section section' : string) (s k v : string) :
  load_lines strict lines cfg section = Continue cfg' section' →
  lookup_entry cfg s k = Some v → lookup_entry cfg' s k = Some v.
Proof.
  revert cfg section. induction lines as [|raw lines IH]; intros cfg section; simpl.
  - by intros [= <- _].
  - destruct (load_line strict cfg section raw) as [c x|] eqn:Hstep; [|done].
    intros Hrest Hold. eapply IH; [done|]. eapply load_line_keeps; eauto.
Qed.

(** [load] returns at the first line that fails, with the error of that
    line and the document as the lines before it left it; the lines
    after it are not looked at. *)
Lemma load_text_abort (strict : bool) (text : string) (before after : list string)
    (raw : string) (cfg cfg' : Config) (section : string) (e : ErrorCode) :
  getlines text = before ++ raw :: after →
  load_lines strict before ∅ "" = Continue cfg section →
  load_line strict cfg section raw = Return e cfg' →
  load_text strict text = (e, cfg').
Proof.
  intros Hlines Hbefore Hstep. unfold load_text.
  rewrite Hlines, load_lines_app, Hbefore. simpl. by rewrite Hstep.
Qed.

(** C6: when a file assigns a key twice in the same section, and nothing
    before the second assignment fails, [load] returns [DuplicateKey] at
    the second assignment; the document is the one built from the lines
    before it, whatever lines follow: none of them is processed.  More
    generally [load] returns the error of the first line that fails,
    whatever the lines after it hold. *)
Theorem load_duplicate_key :
  (∀ (strict : bool) (text : string) (before between after : list string)
     (first second : string) (cfg0 cfg : Config) (section key value1 value2 : string),
     getlines text = before ++ first :: between ++ second :: after →
     load_lines strict before ∅ "" = Continue cfg0 section →
     line_entry strict first = Some (key, value1) →
     load_lines strict (before ++ first :: between) ∅ "" = Continue cfg section →
     line_entry strict second = Some (key, value2) →
     load_text strict text = (DuplicateKey, cfg) ∧
     lookup_entry cfg section key = Some value1) ∧
  (∀ (strict : bool) (text : string) (before after : list string) (raw : string)
     (cfg cfg' : Config) (section : string) (e : ErrorCode),
     getlines text = before ++ raw :: after →
     load_lines strict before ∅ "" = Continue cfg section →
     load_line strict cfg section raw = Return e cfg' →
     load_text strict text = (e, cfg')).
Proof.
  split; [|apply load_text_abort].
  intros strict text before between after first second cfg0 cfg section key value1 value2.
  intros Hlines Hbefore Hfirst Hmid Hsecond.
  assert (lookup_entry cfg section key = Some value1) as Hheld.
  { rewrite load_lines_app, Hbefore in Hmid. simpl in Hmid.
    rewrite (load_line_entry _ _ _ _ _ _ Hfirst) in Hmid.
    destruct (store_entry cfg0 section key value1) as [c x|] eqn:Hst; [|done].
    destruct (store_entry_continue _ _ _ _ _ _ Hst) as (-> & _ & ->).
    eapply load_lines_keeps; [done|].
    unfold lookup_entry. rewrite lookup_insert_eq. simpl. by rewrite lookup_insert_eq. }
  split; [|done].
  eapply (load_text_abort strict text (before ++ first :: between) after second);
    [by rewrite <- app_assoc | done |].
  rewrite (load_line_entry _ _ _ _ _ _ Hsecond).
  by rewrite (store_entry_duplicate _ _ _ _ _ Hheld).
Qed.

Lemma load_duplicate_key_witness :
  let text := "key=first" +:+ String newline "key=second" +:+ String newline "third=3" in
  let cfg : Config := {[ "" := {[ "key" := "first" ]} ]} in
  load_text true text = (DuplicateKey, cfg) ∧
  lookup_entry cfg "" "key" = Some "first".
Proof.
  apply (proj1 load_duplicate_key true _ [] [] ["third=3"] "key=first" "key=second"
           ∅ _ "" "key" "first" "second"); vm_compute; reflexivity.
Defined.

(** ** Quoted values *)

Lemma is_char_true (c : option ascii) (ch : ascii) :
  is_char c ch = true ↔ c = Some ch.
Proof.
  destruct c as [x|]; simpl; [|done].
  destruct (Ascii.eqb_spec x ch); split; congruence.
Qed.

(** C7: on a key-value line (one with a non-empty key) whose trimmed raw
    value opens with a quote character, [load] returns [UnmatchedQuotes],
    leaving the document as it was, exactly when the value is not at
    least two characters long with that same quote character last; when
    the lines before it succeed this is what [load] returns for the file.
    The line [key=Qunterminated] (Q a double quote) is rejected so. *)
Theorem load_unmatched_quotes :
  (∀ (strict : bool) (cfg : Config) (section raw line value : string)
     (pos : nat) (quote : ascii),
     logical_line strict raw = Some line →
     is_header line = false →
     find "=" line = Some pos →
     empty (detail.trim (substr 0 pos line)) = false →
     detail.trim (substr_from (pos + 1) line) = value →
     front value = Some quote →
     is_quote quote = true →
     (load_line strict cfg section raw = Return UnmatchedQuotes cfg ↔
      ¬ (2 ≤ String.length value ∧ back value = Some quote)) ∧
     (¬ (2 ≤ String.length value ∧ back value = Some quote) →
      ∀ (text : string) (before after : list string),
        getlines text = before ++ raw :: after →
        load_lines strict before ∅ "" = Continue cfg section →
        load_text strict text = (UnmatchedQuotes, cfg))) ∧
  (∀ strict : bool,
     load_text strict ("key=" +:+ String dquote "unterminated") = (UnmatchedQuotes, ∅)).
Proof.
  split; [|by intros []].
  intros strict cfg section raw line value pos quote Hline Hhdr Hpos Hkey Hval Hfront Hq.
  assert (load_line strict cfg section raw = Return UnmatchedQuotes cfg ↔
          ¬ (2 ≤ String.length value ∧ back value = Some quote)) as Hiff.
  { unfold load_line, load_logical, load_entry, load_key_value.
    rewrite Hline, Hhdr, Hpos, Hkey, Hval. unfold decode_value. rewrite Hfront, Hq.
    destruct (String.length value <? 2) eqn:Hlen; simpl.
    - apply Nat.ltb_lt in Hlen. split; [lia | done].
    - apply Nat.ltb_ge in Hlen.
      destruct (is_char (back value) quote) eqn:Hback; simpl.
      + apply is_char_true in Hback. split.
        * intros Hst. by destruct (store_entry_return _ _ _ _ _ _ Hst).
        * intros Hno. by destruct Hno.
      + split; [|done]. intros _ [_ Hb]. apply is_char_true in Hb. congruence. }
  split; [done|].
  intros Hno text before after Hlines Hbefore.
  eapply load_text_abort; [done..|]. by apply Hiff.
Qed.

Lemma load_unmatched_quotes_witness :
  let value := String dquote "unterminated" in
  load_line true ∅ "" ("key=" +:+ value) = Return UnmatchedQuotes ∅ ↔
  ¬ (2 ≤ String.length value ∧ back value = Some dquote).
Proof.
  apply (proj1 load_unmatched_quotes true ∅ "" ("key=" +:+ String dquote "unterminated")
           ("key=" +:+ String dquote "unterminated") _ 3 dquote); reflexivity.
Defined.

(** ** [set] *)

Lemma empty_true (s : string) : empty s = true ↔ s = "".
Proof. by destruct s. Qed.

Lemma find_first_of_Some (chars : list ascii) (s : string) (pos : nat) :
  find_first_of chars s = Some pos → ∃ ch, ch ∈ chars ∧ contains s ch.
Proof.
  revert pos. induction s as [|c s IH]; intros pos; simpl; [done|].
  destruct (existsb (Ascii.eqb c) chars) eqn:Hex.
  - intros _. apply existsb_exists in Hex as (ch & Hin & Heq).
    apply Ascii.eqb_eq in Heq as ->. exists ch. split; [by apply list_elem_of_In|].
    by exists 0.
  - destruct (find_first_of chars s) as [n|]; simpl; [|done].
    intros _. destruct (IH n eq_refl) as (ch & Hin & i & Hi).
    exists ch. split; [done|]. by exists (S i).
Qed.

Lemma find_first_of_None (chars : list ascii) (s : string) (ch : ascii) :
  find_first_of chars s = None → ch ∈ chars → ¬ contains s ch.
Proof.
  induction s as [|c s IH]; simpl; [by intros _ _ [[|i] Hi]|].
  destruct (existsb (Ascii.eqb c) chars) eqn:Hex; [done|].
  destruct (find_first_of chars s) as [n|]; simpl; [done|].
  intros _ Hin [[|i] Hi]; simpl in Hi.
  - injection Hi as ->. apply not_true_iff_false in Hex. apply Hex.
    apply existsb_exists. exists ch. split; [by apply list_elem_of_In|].
    apply Ascii.eqb_refl.
  - apply IH; [done..|]. by exists i.
Qed.

(** C8: [set] trims the key and fails with [EmptyKey] when nothing is
    left; otherwise it trims the section name and fails with
    [InvalidSection] when a bracket occurs in it; otherwise it succeeds:
    the section then exists, the value is stored under the trimmed names
    whatever was stored there, and every other entry is as before.  It
    never returns [DuplicateKey]. *)
Theorem set_behaviour (p : Parser) (section key value : string) :
  let k := detail.trim key in
  let s := detail.trim section in
  (k = "" → set p section key value = (EmptyKey, p)) ∧
  (k ≠ "" → contains s "[" ∨ contains s "]" →
     set p section key value = (InvalidSection, p)) ∧
  (k ≠ "" → ¬ contains s "[" → ¬ contains s "]" →
     ∃ q, set p section key value = (Success, q) ∧
          strict_comments_ q = strict_comments_ p ∧
          is_Some (data q !! s) ∧
          lookup_entry (data q) s k = Some value ∧
          (∀ d, get q s k d = value) ∧
          (∀ s' k', (s', k') ≠ (s, k) →
             lookup_entry (data q) s' k' = lookup_entry (data p) s' k')) ∧
  (set p section key value).1 ≠ DuplicateKey.
Proof.
  intros k s. unfold set. fold k s.
  destruct (empty k) eqn:Hk.
  { apply empty_true in Hk. repeat split; done. }
  assert (k ≠ "") as Hne by (intros Hk'; apply empty_true in Hk'; congruence).
  destruct (find_first_of ["["%char; "]"%char] s) as [n|] eqn:Hf.
  - repeat split; try done.
    intros _ Hno1 Hno2. destruct (find_first_of_Some _ _ _ Hf) as (ch & Hin & Hc).
    apply elem_of_cons in Hin as [->|Hin]; [done|].
    apply elem_of_cons in Hin as [->|Hin]; [done|]. by apply elem_of_nil in Hin.
  - pose proof (index_section_entry (config p) s) as Hentry.
    pose proof (index_section_other (config p) s) as Hother.
    destruct (index_section (config p) s) as [cfg pairs]. simpl in *.
    repeat split; try done.
    + intros _ [Hc|Hc]; exfalso; revert Hc;
        apply (find_first_of_None _ _ _ Hf); set_solver.
    + intros _ _ _. eexists. split; [done|]. simpl. unfold data, get, lookup_entry. simpl.
      rewrite lookup_insert_eq. simpl. rewrite lookup_insert_eq.
      repeat split; [eauto..|].
      intros s' k' Hdiff. destruct (decide (s' = s)) as [->|Hs].
      * rewrite lookup_insert_eq. simpl.
        rewrite lookup_insert_ne by congruence. apply Hentry.
      * rewrite lookup_insert_ne by done. by rewrite Hother.
Qed.

Lemma set_behaviour_witness :
  ∃ q, set default_parser " server " " port " "8080" = (Success, q) ∧
       strict_comments_ q = true ∧
       is_Some (data q !! "server") ∧
       lookup_entry (data q) "server" "port" = Some "8080" ∧
       (∀ d, get q "server" "port" d = "8080") ∧
       (∀ s' k', (s', k') ≠ ("server", "port") →
          lookup_entry (data q) s' k' = lookup_entry (data default_parser) s' k').
Proof.
  destruct (set_behaviour default_parser " server " " port " "8080") as (_ & _ & H & _).
  apply H.
  - discriminate.
  - intros [i Hi]. do 7 (destruct i as [|i]; [discriminate|]). discriminate.
  - intros [i Hi]. do 7 (destruct i as [|i]; [discriminate|]). discriminate.
Defined.

(** ** Opening the file *)

(** C9: when the file cannot be opened, [load] returns [FileNotFound] and
    the document is untouched.  Once the file is open the former contents
    play no part: the result is that of parsing the text into an empty
    document, and a parse error leaves what the lines before it stored. *)
Theorem load_unopened_file_keeps_document :
  (∀ (fs : FileSystem) (filename : string) (p : Parser),
     files fs !! filename = None → load fs filename p = (FileNotFound, p)) ∧
  (∀ (fs : FileSystem) (filename text : string) (p : Parser),
     files fs !! filename = Some text →
     load fs filename p =
       ((load_text (strict_comments_ p) text).1,
        {| config := (load_text (strict_comments_ p) text).2;
           strict_comments_ := strict_comments_ p |}) ∧
     ∀ cfg, load fs filename {| config := cfg; strict_comments_ := strict_comments_ p |} =
            load fs filename p) ∧
  (∀ (filename : string) (cfg : Config) (strict : bool),
     load (single_file filename ("a=1" +:+ String newline "no separator")) filename
          {| config := cfg; strict_comments_ := strict |} =
       (InvalidLine, {| config := {[ "" := {[ "a" := "1" ]} ]};
                        strict_comments_ := strict |})).
Proof.
  split; [|split].
  - intros fs filename p Hnone. unfold load. by rewrite Hnone.
  - intros fs filename text p Hsome. unfold load. rewrite Hsome. simpl.
    by destruct (load_text (strict_comments_ p) text).
  - intros filename cfg strict. unfold load, single_file. simpl.
    rewrite lookup_singleton_eq. by destruct strict.
Qed.

Lemma load_unopened_file_keeps_document_witness :
  let p := {| config := {[ "old" := {[ "x" := "y" ]} ]}; strict_comments_ := true |} in
  load no_files "missing.ini" p = (FileNotFound, p).
Proof.
  apply (proj1 load_unopened_file_keeps_document no_files "missing.ini"). reflexivity.
Defined.

(** ** No section is empty *)

Lemma sections_nonempty_empty : sections_nonempty ∅.
Proof. intros s pairs H. by rewrite lookup_empty in H. Qed.

Lemma sections_nonempty_insert (cfg : Config) (section key value : string)
    (pairs : SectionMap) :
  (∀ s m, s ≠ section → cfg !! s = Some m → m ≠ ∅) →
  sections_nonempty (<[section := <[key := value]> pairs]> cfg).
Proof.
  intros Hcfg s m. destruct (decide (s = section)) as [->|Hs].
  - rewrite lookup_insert_eq. intros [= <-]. apply insert_non_empty.
  - rewrite lookup_insert_ne by done. by apply Hcfg.
Qed.

Lemma index_section_nonempty (cfg : Config) (section : string) :
  sections_nonempty cfg →
  ∀ s m, s ≠ section → (index_section cfg section).1 !! s = Some m → m ≠ ∅.
Proof.
  intros Hcfg s m Hs. rewrite index_section_other by done. apply Hcfg.
Qed.

Lemma store_entry_nonempty (cfg : Config) (section key value : string) :
  sections_nonempty cfg →
  sections_nonempty (result_config (store_entry cfg section key value)).
Proof.
  intros Hcfg. destruct (store_entry cfg section key value) as [c x|e c] eqn:Hst; simpl.
  - destruct (store_entry_continue _ _ _ _ _ _ Hst) as (_ & _ & ->).
    apply sections_nonempty_insert. by apply index_section_nonempty.
  - by destruct (store_entry_return _ _ _ _ _ _ Hst) as (_ & -> & _).
Qed.

Lemma load_line_nonempty (strict : bool) (cfg : Config) (section raw : string) :
  sections_nonempty cfg →
  sections_nonempty (result_config (load_line strict cfg section raw)).
Proof.
  intros Hcfg.
  destruct (load_line_cases strict cfg section raw) as [[x ->]|[[e ->]|(k & v & ->)]];
    [done..|]. by apply store_entry_nonempty.
Qed.

Lemma load_lines_nonempty (strict : bool) (lines : list string) (cfg : Config)
    (section : string) :
  sections_nonempty cfg →
  sections_nonempty (result_config (load_lines strict lines cfg section)).
Proof.
  revert cfg section. induction lines as [|raw lines IH]; intros cfg section Hcfg; [done|].
  simpl. pose proof (load_line_nonempty strict cfg section raw Hcfg) as Hstep.
  destruct (load_line strict cfg section raw); [by apply IH | done].
Qed.

Lemma load_text_nonempty (strict : bool) (text : string) :
  sections_nonempty (load_text strict text).2.
Proof.
  unfold load_text.
  pose proof (load_lines_nonempty strict (getlines text) ∅ "" sections_nonempty_empty) as H.
  by destruct (load_lines strict (getlines text) ∅ "").
Qed.

Lemma load_nonempty (fs : FileSystem) (filename : string) (p : Parser) :
  sections_nonempty (config p) → sections_nonempty (config (load fs filename p).2).
Proof.
  intros Hp. unfold load. destruct (files fs !! filename) as [text|]; [|done].
  pose proof (load_text_nonempty (strict_comments_ p) text) as H.
  by destruct (load_text (strict_comments_ p) text).
Qed.

Lemma set_nonempty (p : Parser) (section key value : string) :
  sections_nonempty (config p) → sections_nonempty (config (set p section key value).2).
Proof.
  intros Hp. unfold set. destruct (empty _); [done|].
  destruct (find_first_of _ _); [done|].
  pose proof (index_section_nonempty (config p) (detail.trim section) Hp) as H.
  destruct (index_section (config p) (detail.trim section)) as [cfg pairs]. simpl in *.
  by apply sections_nonempty_insert.
Qed.

Lemma call_nonempty (c : Call) (st : FileSystem * Parser) :
  sections_nonempty (config st.2) → sections_nonempty (config (call c st).2).
Proof.
  destruct st as [fs p]. destruct c; simpl; intros Hp;
    [by apply load_nonempty | by apply set_nonempty | done].
Qed.

Lemma run_nonempty (calls : list Call) (st : FileSystem * Parser) :
  sections_nonempty (config st.2) → sections_nonempty (config (run calls st).2).
Proof.
  revert st. induction calls as [|c calls IH]; intros st Hst; [done|].
  apply IH. by apply call_nonempty.
Qed.

(** A header line changes the current section at most, never the
    document. *)
Lemma load_header_keeps_document (strict : bool) (cfg : Config)
    (section raw line : string) :
  logical_line strict raw = Some line → is_header line = true →
  result_config (load_line strict cfg section raw) = cfg.
Proof.
  intros Hline Hhdr. unfold load_line, load_logical. rewrite Hline, Hhdr.
  by destruct (empty _).
Qed.

(** C10: after any run of [load], [set] and [save] calls on a new parser,
    every section that [data] shows holds at least one pair.  A header
    line alone never adds a section; a file made of the header [[name]]
    loads as the empty document, and a header followed at once by another
    header leaves no entry under its name. *)
Theorem data_sections_nonempty :
  (∀ (strict : bool) (fs : FileSystem) (calls : list Call),
     sections_nonempty (data (run calls (fs, new_parser strict)).2)) ∧
  (∀ (strict : bool) (cfg : Config) (section raw line : string),
     logical_line strict raw = Some line → is_header line = true →
     result_config (load_line strict cfg section raw) = cfg) ∧
  (∀ strict : bool,
     load_text strict ("[name]" +:+ String newline "") = (Success, ∅)) ∧
  (∀ strict : bool,
     ∃ cfg, load_text strict ("[name]" +:+ String newline "[other]" +:+
                              String newline "key=value" +:+ String newline "")
              = (Success, cfg) ∧
            cfg !! "name" = None ∧ cfg !! "other" = Some {[ "key" := "value" ]}).
Proof.
  split; [|split; [|split]].
  - intros strict fs calls. unfold data. apply run_nonempty. apply sections_nonempty_empty.
  - apply load_header_keeps_document.
  - by intros [].
  - intros []; (eexists; split; [vm_compute; reflexivity|]); by vm_compute.
Qed.

Lemma data_sections_nonempty_witness :
  result_config (load_line true ∅ "" " [ name ] ; header") = ∅.
Proof.
  apply (proj1 (proj2 data_sections_nonempty) true ∅ "" _ "[ name ]"); reflexivity.
Defined.

(** ** The tests of the repository, run on the embedding *)

(** Test 9: global keys, sections, full-line and inline comments. *)
Example test_load_complex :
  load_text true (file_of_lines
    [ "; Global comment"; "global_key = global_value"; "# Section comment";
      "[section1]"; "key1=value1 ; inline comment"; "key2=value2#no space inline";
      "key3=" +:+ quoted "quoted ; with # space"; ""; "[section2]"; "key4 = value4" ]) =
  (Success,
   {[ "" := {[ "global_key" := "global_value" ]};
      "section1" := {[ "key1" := "value1"; "key2" := "value2#no space inline";
                       "key3" := "quoted ; with # space" ]};
      "section2" := {[ "key4" := "value4" ]} ]}).
Proof. vm_compute. reflexivity. Qed.

(** Test 16: escapes in double and in single quotes, and the round trip
    of the loaded values through [save] and [load]. *)
Example test_escaped_values :
  let text := file_of_lines
    [ "key1=" +:+ quoted ("value \" +:+ String dquote "with\" +:+ String dquote " quote\nline");
      "key2='escaped \'single\' quote\t'";
      "key3=" +:+ quoted "backslash \\ here" ] in
  let loaded : Config :=
    {[ "" := {[ "key1" := "value " +:+ quoted "with" +:+ " quote" +:+ String newline "line";
                "key2" := "escaped 'single' quote" +:+ String tab "";
                "key3" := "backslash \ here" ]} ]} in
  load_text true text = (Success, loaded) ∧
  save_then_load "escaped_roundtrip.ini" {| config := loaded; strict_comments_ := true |} =
    (Success, Success, {| config := loaded; strict_comments_ := true |}).
Proof. vm_compute. split; reflexivity. Qed.

(** Test 17: the first unmatched quote stops the load. *)
Example test_unmatched_quotes :
  load_text true (file_of_lines [ "key1=" +:+ String dquote "unmatched"; "key3='single" ]) =
  (UnmatchedQuotes, ∅).
Proof. vm_compute. reflexivity. Qed.

(** Test 20: blanks around keys, values and section names. *)
Example test_whitespace_heavy :
  load_text true (file_of_lines
    [ "   key1   =   value1   "; "[   section   ]"; "   key2   =   value2   ; comment" ]) =
  (Success, {[ "" := {[ "key1" := "value1" ]}; "section" := {[ "key2" := "value2" ]} ]}).
Proof. vm_compute. reflexivity. Qed.

(** Test 21: only the first [=] separates. *)
Example test_multiple_equals :
  load_text true (file_of_lines [ "key=value=extra"; "key2=" +:+ quoted "quoted=value" ]) =
  (Success, {[ "" := {[ "key" := "value=extra"; "key2" := "quoted=value" ]} ]}).
Proof. vm_compute. reflexivity. Qed.

(** ** Saving and loading back *)

(** C1 does not hold of the code.  A value that is a lone single quote
    is saved unquoted, as the line [k='], and loading that file fails
    with [UnmatchedQuotes]; the value ['a'] is saved unquoted too and
    comes back as [a]; and the value [aQb ;c] (Q a double quote) is saved
    quoted and escaped, but the comment scanner, which knows no escapes,
    cuts the line at the semicolon, so that the load fails as well. *)
Theorem save_load_loses_quoted_values :
  let lone := (set default_parser "" "k" "'").2 in
  let pair := (set default_parser "" "k" "'a'").2 in
  let mixed := (set default_parser "" "k" ("a" +:+ String dquote "b ;c")).2 in
  data lone = {[ "" := {[ "k" := "'" ]} ]} ∧
  save_text (data lone) = "k='" +:+ String newline (String newline "") ∧
  save_then_load "f.ini" lone = (Success, UnmatchedQuotes, default_parser) ∧
  data pair = {[ "" := {[ "k" := "'a'" ]} ]} ∧
  save_then_load "f.ini" pair =
    (Success, Success,
     {| config := {[ "" := {[ "k" := "a" ]} ]}; strict_comments_ := true |}) ∧
  data mixed = {[ "" := {[ "k" := "a" +:+ String dquote "b ;c" ]} ]} ∧
  save_text (data mixed) =
    "k=" +:+ String dquote "a\" +:+ String dquote "b ;c" +:+
    String dquote (String newline (String newline "")) ∧
  save_then_load "f.ini" mixed = (Success, UnmatchedQuotes, default_parser).
Proof. vm_compute. repeat split; reflexivity. Qed.

(** ** Reversal, first and last characters *)

Lemma length_append (a b : string) :
  String.length (a +:+ b) = String.length a + String.length b.
Proof. induction a as [|c a IH]; simpl; [done | by rewrite IH]. Qed.

Lemma rev_app_append (a b : string) : String.rev_app a b = String.rev a +:+ b.
Proof.
  unfold String.rev. revert b. induction a as [|c a IH]; intros b; simpl; [done|].
  rewrite (IH (String c b)), (IH (String c "")). by rewrite append_assoc.
Qed.

Lemma rev_cons (c : ascii) (a : string) :
  String.rev (String c a) = String.rev a +:+ String c "".
Proof. unfold String.rev at 1. simpl. apply rev_app_append. Qed.

Lemma rev_append (a b : string) : String.rev (a +:+ b) = String.rev b +:+ String.rev a.
Proof.
  induction a as [|c a IH]; simpl.
  - by rewrite append_empty_r.
  - by rewrite !rev_cons, IH, append_assoc.
Qed.

Lemma rev_involutive (a : string) : String.rev (String.rev a) = a.
Proof.
  induction a as [|c a IH]; [done|]. rewrite rev_cons, rev_append. simpl. by rewrite IH.
Qed.

Lemma front_append (a b : string) :
  front (a +:+ b) = match front a with Some c => Some c | None => front b end.
Proof. by destruct a. Qed.

Lemma back_None (s : string) : back s = None → s = "".
Proof.
  induction s as [|c s IH]; [done|]. simpl. destruct s; [done|]. intros H.
  by specialize (IH H).
Qed.

Lemma back_cons (c : ascii) (s : string) :
  back (String c s) = match back s with Some x => Some x | None => Some c end.
Proof.
  simpl. destruct s as [|x y]; [done|].
  destruct (back (String x y)) eqn:Hb; [done|]. by apply back_None in Hb.
Qed.

Lemma back_append (a b : string) :
  back (a +:+ b) = match back b with Some c => Some c | None => back a end.
Proof.
  induction a as [|c a IH].
  - simpl. by destruct (back b).
  - change (String c a +:+ b) with (String c (a +:+ b)).
    rewrite !back_cons, IH. by destruct (back b).
Qed.

Lemma front_rev (s : string) : front (String.rev s) = back s.
Proof.
  induction s as [|c s IH]; [done|]. rewrite rev_cons, front_append, IH, back_cons.
  by destruct (back s).
Qed.

Lemma back_rev (s : string) : back (String.rev s) = front s.
Proof. by rewrite <- front_rev, rev_involutive. Qed.

Lemma all_chars_append (P : ascii → bool) (a b : string) :
  all_chars P (a +:+ b) = all_chars P a && all_chars P b.
Proof. induction a as [|c a IH]; simpl; [done|]. by rewrite IH, andb_assoc. Qed.

Lemma all_chars_rev (P : ascii → bool) (s : string) :
  all_chars P (String.rev s) = all_chars P s.
Proof.
  induction s as [|c s IH]; [done|]. rewrite rev_cons, all_chars_append, IH. simpl.
  by rewrite andb_true_r, andb_comm.
Qed.

Lemma all_chars_impl (P Q : ascii → bool) (s : string) :
  (∀ c, P c = true → Q c = true) → all_chars P s = true → all_chars Q s = true.
Proof.
  intros HPQ. induction s as [|c s IH]; simpl; [done|].
  intros [Hc Hs]%andb_true_iff. apply andb_true_iff. auto.
Qed.

(** ** [trim] *)

Lemma erase_leading_space_clean (s : string) :
  starts_clean (detail.erase_leading_space s) = true.
Proof.
  induction s as [|c s IH]; simpl; [done|].
  destruct (isspace c) eqn:Hc; [done|]. unfold starts_clean. simpl. by rewrite Hc.
Qed.

Lemma erase_leading_space_id (s : string) :
  starts_clean s = true → detail.erase_leading_space s = s.
Proof.
  destruct s as [|c s]; simpl; [done|]. unfold starts_clean. simpl.
  by destruct (isspace c).
Qed.

Lemma erase_leading_space_split (s : string) :
  ∃ p, s = p +:+ detail.erase_leading_space s ∧ all_chars isspace p = true.
Proof.
  induction s as [|c s (p & Hs & Hp)]; simpl; [by exists ""|].
  destruct (isspace c) eqn:Hc; [|by exists ""].
  exists (String c p). simpl. rewrite <- Hs, Hc. done.
Qed.

Lemma trim_split (s : string) :
  ∃ p q, s = p +:+ detail.trim s +:+ q ∧
         all_chars isspace p = true ∧ all_chars isspace q = true.
Proof.
  unfold detail.trim.
  destruct (erase_leading_space_split s) as (p & Hs & Hp).
  destruct (erase_leading_space_split (String.rev (detail.erase_leading_space s)))
    as (q & Ha & Hq).
  exists p, (String.rev q). split; [|by rewrite all_chars_rev].
  rewrite <- rev_append, <- Ha, rev_involutive. done.
Qed.

Lemma trim_clean (s : string) :
  starts_clean (detail.trim s) = true ∧ ends_clean (detail.trim s) = true.
Proof.
  unfold detail.trim.
  pose proof (erase_leading_space_clean s) as Ha.
  set (a := detail.erase_leading_space s) in *.
  pose proof (erase_leading_space_clean (String.rev a)) as Hb.
  destruct (erase_leading_space_split (String.rev a)) as (q & Hsplit & _).
  set (b := detail.erase_leading_space (String.rev a)) in *.
  split.
  - unfold starts_clean in *. rewrite front_rev.
    destruct (back b) as [c|] eqn:Hback; [|done].
    assert (back (String.rev a) = Some c) as Hc by (by rewrite Hsplit, back_append, Hback).
    rewrite back_rev in Hc. by rewrite Hc in Ha.
  - unfold ends_clean. rewrite back_rev. apply Hb.
Qed.

Lemma trim_id (s : string) :
  starts_clean s = true → ends_clean s = true → detail.trim s = s.
Proof.
  intros Hs He. unfold detail.trim. rewrite (erase_leading_space_id s Hs).
  rewrite erase_leading_space_id, rev_involutive; [done|].
  unfold starts_clean. rewrite front_rev. apply He.
Qed.

Lemma trim_trim (s : string) : detail.trim (detail.trim s) = detail.trim s.
Proof. destruct (trim_clean s). by apply trim_id. Qed.

(** X1: [trim] removes whitespace from the two ends and nothing else:
    the input is the result between two runs of whitespace, and the
    result neither begins nor ends with whitespace. *)
Theorem trim_removes_outer_whitespace (s : string) :
  (∃ p q, s = p +:+ detail.trim s +:+ q ∧
          all_chars isspace p = true ∧ all_chars isspace q = true) ∧
  starts_clean (detail.trim s) = true ∧ ends_clean (detail.trim s) = true.
Proof. split; [apply trim_split | apply trim_clean]. Qed.

(** X2: [trim] leaves alone a string that neither begins nor ends with
    whitespace, so that trimming twice is trimming once; a string of
    whitespace only is trimmed to the empty string. *)
Theorem trim_fixed_points (s : string) :
  (starts_clean s = true → ends_clean s = true → detail.trim s = s) ∧
  detail.trim (detail.trim s) = detail.trim s ∧
  (all_chars isspace s = true → detail.trim s = "").
Proof.
  split; [apply trim_id | split; [apply trim_trim|]].
  intros Hall. destruct (trim_split s) as (p & q & Hs & _ & _).
  destruct (trim_clean s) as [Hclean _].
  rewrite Hs, !all_chars_append in Hall.
  apply andb_true_iff in Hall as [_ [Hmid _]%andb_true_iff].
  destruct (detail.trim s) as [|c r]; [done|].
  unfold starts_clean in Hclean. simpl in *.
  apply andb_true_iff in Hmid as [Hc _]. by rewrite Hc in Hclean.
Qed.

Lemma trim_fixed_points_witness :
  detail.trim "a b" = "a b" ∧ detail.trim (String tab " ") = "".
Proof.
  split.
  - apply (proj1 (trim_fixed_points "a b")); reflexivity.
  - apply (proj2 (proj2 (trim_fixed_points (String tab " ")))). reflexivity.
Defined.

(** ** More on the escape codec *)

Lemma escape_switch_single_line (c : ascii) :
  all_chars (λ ch, negb (is_line_break ch)) (detail.escape_switch c) = true.
Proof.
  unfold detail.escape_switch.
  destruct (Ascii.eqb_spec c dquote); [reflexivity|].
  destruct (Ascii.eqb_spec c squote); [reflexivity|].
  destruct (Ascii.eqb_spec c backslash); [reflexivity|].
  destruct (Ascii.eqb c newline) eqn:Hn; [reflexivity|].
  destruct (Ascii.eqb c tab) eqn:Ht; [reflexivity|].
  destruct (Ascii.eqb c carriage_return) eqn:Hr; [reflexivity|].
  simpl. unfold is_line_break. by rewrite Hn, Ht, Hr.
Qed.

Lemma escape_switch_quotes_escaped (c : ascii) (rest : string) :
  quotes_escaped false (detail.escape_switch c +:+ rest) = quotes_escaped false rest.
Proof.
  unfold detail.escape_switch.
  destruct (Ascii.eqb c dquote) eqn:Hd; [reflexivity|].
  destruct (Ascii.eqb c squote) eqn:Hs; [reflexivity|].
  destruct (Ascii.eqb c backslash) eqn:Hb; [reflexivity|].
  destruct (Ascii.eqb c newline); [reflexivity|].
  destruct (Ascii.eqb c tab); [reflexivity|].
  destruct (Ascii.eqb c carriage_return); [reflexivity|].
  simpl. unfold is_quote. by rewrite Hb, Hd, Hs.
Qed.

Lemma escape_switch_length (c : ascii) :
  1 ≤ String.length (detail.escape_switch c) ≤ 2.
Proof.
  unfold detail.escape_switch.
  repeat match goal with |- context [if ?b then _ else _] => destruct b end;
    simpl; lia.
Qed.

(** X3: the output of [escape] holds no newline, tab or carriage return,
    and no bare quote character: every quote in it follows a backslash
    that escapes it.  An escaped value therefore stays on one line. *)
Theorem escape_single_line (s : string) :
  all_chars (λ ch, negb (is_line_break ch)) (detail.escape s) = true ∧
  quotes_escaped false (detail.escape s) = true.
Proof.
  induction s as [|c s [IH1 IH2]]; [done|]. rewrite escape_cons. split.
  - by rewrite all_chars_append, escape_switch_single_line, IH1.
  - by rewrite escape_switch_quotes_escaped.
Qed.

(** X4: [escape] at most doubles the length of its argument, which is
    the capacity it reserves, and never shortens it. *)
Theorem escape_length (s : string) :
  String.length s ≤ String.length (detail.escape s) ≤ 2 * String.length s.
Proof.
  induction s as [|c s IH]; [simpl; lia|].
  rewrite escape_cons, length_append. pose proof (escape_switch_length c). simpl. lia.
Qed.

Lemma push_back_length (s : string) (c : ascii) :
  String.length (push_back s c) = S (String.length s).
Proof. unfold push_back. rewrite length_append. simpl. lia. Qed.

Lemma unescape_loop_length (s r : string) (e : bool) :
  String.length (detail.unescape_loop s (r, e)).1 ≤ String.length r + String.length s.
Proof.
  revert r e. induction s as [|c s IH]; intros r e; [simpl; lia|].
  unfold detail.unescape_loop in *. simpl. destruct e.
  - etrans; [apply IH|]. rewrite push_back_length. lia.
  - destruct (Ascii.eqb c backslash).
    + etrans; [apply IH|]. lia.
    + etrans; [apply IH|]. rewrite push_back_length. lia.
Qed.

(** X5: [unescape] never lengthens its argument, so the capacity it
    reserves suffices. *)
Theorem unescape_length (s : string) :
  String.length (detail.unescape s) ≤ String.length s.
Proof. apply (unescape_loop_length s "" false). Qed.

Lemma unescape_loop_plain (s r : string) :
  all_chars (λ ch, negb (Ascii.eqb ch backslash)) s = true →
  detail.unescape_loop s (r, false) = (r +:+ s, false).
Proof.
  revert r. induction s as [|c s IH]; intros r; simpl.
  - intros _. by rewrite append_empty_r.
  - intros [Hc Hs]%andb_true_iff. apply negb_true_iff in Hc.
    unfold detail.unescape_loop in *. simpl. rewrite Hc, (IH _ Hs).
    unfold push_back. by rewrite append_assoc.
Qed.

(** X6: [unescape] returns unchanged a string that holds no backslash. *)
Theorem unescape_without_backslash (s : string) :
  all_chars (λ ch, negb (Ascii.eqb ch backslash)) s = true →
  detail.unescape s = s.
Proof. intros Hs. unfold detail.unescape. by rewrite (unescape_loop_plain s "" Hs). Qed.

Lemma unescape_without_backslash_witness :
  detail.unescape "plain 'text' = 1" = "plain 'text' = 1".
Proof. apply (unescape_without_backslash "plain 'text' = 1"). reflexivity. Defined.

(** X7: [escape] maps different strings to different strings. *)
Theorem escape_injective (a b : string) :
  detail.escape a = detail.escape b ↔ a = b.
Proof.
  split; [|by intros ->]. intros Heq.
  pose proof (unescape_loop_escape a "") as Ha.
  rewrite Heq, unescape_loop_escape in Ha. by injection Ha.
Qed.

(** ** Error messages *)

(** X8: the messages of [errorToString] tell the error codes apart: two
    codes have the same message only when they are the same code. *)
Theorem errorToString_injective (a b : ErrorCode) :
  errorToString a = errorToString b ↔ a = b.
Proof. split; [|by intros ->]. destruct a, b; (done || discriminate). Qed.

(** ** What one line can do *)

Lemma store_entry_put (cfg : Config) (section key value : string) :
  lookup_entry cfg section key = None →
  store_entry cfg section key value = Continue (put_entry cfg section key value) section.
Proof.
  unfold store_entry, lookup_entry, index_section, put_entry.
  destruct (cfg !! section) as [pairs|]; simpl.
  - by intros ->.
  - intros _. rewrite lookup_empty. by rewrite insert_insert_eq.
Qed.

(** A line goes on with the document unchanged, under the same section
    or under a new, non-empty, trimmed one; or it fails with a parse
    error, the document unchanged; or it stores a value under a
    non-empty, trimmed key of the current section. *)
Lemma load_line_outcome (strict : bool) (cfg : Config) (currentSection raw : string) :
  (∃ section, load_line strict cfg currentSection raw = Continue cfg section ∧
              (section = currentSection ∨
               (section ≠ "" ∧ detail.trim section = section))) ∨
  (∃ e, load_line strict cfg currentSection raw = Return e cfg ∧
        is_parse_error e = true) ∨
  (∃ key value, key ≠ "" ∧ detail.trim key = key ∧
                load_line strict cfg currentSection raw =
                  store_entry cfg currentSection key value).
Proof.
  unfold load_line. destruct (logical_line strict raw) as [line|]; [|eauto].
  unfold load_logical. destruct (is_header line).
  - destruct (empty _) eqn:He; [right; left; eauto|].
    left. eexists. split; [done|]. right. split; [|apply trim_trim].
    intros Hx. apply empty_true in Hx. congruence.
  - unfold load_entry. destruct (find "=" line) as [pos|]; [|right; left; eauto].
    unfold load_key_value. destruct (empty _) eqn:He; [right; left; eauto|].
    destruct (decode_value _); [|right; left; eauto].
    right. right. do 2 eexists. split; [|split; [apply trim_trim | done]].
    intros Hx. apply empty_true in Hx. congruence.
Qed.

Lemma load_line_error (strict : bool) (cfg cfg' : Config) (section raw : string)
    (e : ErrorCode) :
  load_line strict cfg section raw = Return e cfg' →
  is_parse_error e = true ∧ cfg' = cfg.
Proof.
  intros Hret.
  destruct (load_line_outcome strict cfg section raw)
    as [(x & Hx & _)|[(e' & He & Hpe)|(k & v & _ & _ & Hkv)]].
  - by rewrite Hx in Hret.
  - rewrite He in Hret. by injection Hret as <- <-.
  - rewrite Hkv in Hret. by destruct (store_entry_return _ _ _ _ _ _ Hret) as (-> & -> & _).
Qed.

Lemma load_lines_error (strict : bool) (lines : list string) (cfg cfg' : Config)
    (section : string) (e : ErrorCode) :
  load_lines strict lines cfg section = Return e cfg' → is_parse_error e = true.
Proof.
  revert cfg section. induction lines as [|raw lines IH]; intros cfg section; [done|].
  simpl. destruct (load_line strict cfg section raw) as [c x|e' c] eqn:Hstep.
  - apply IH.
  - intros [= <- <-]. by destruct (load_line_error _ _ _ _ _ _ Hstep).
Qed.

(** X9: [load] returns [FileNotFound] exactly when the file cannot be
    opened, and never [FileWriteFailed]: once the file is open the result
    is [Success] or one of the five parse errors.  The comment mode of
    the parser is never changed. *)
Theorem load_error_codes (fs : FileSystem) (filename : string) (p : Parser) :
  ((load fs filename p).1 = FileNotFound ↔ files fs !! filename = None) ∧
  ((load fs filename p).1 = Success ∨ (load fs filename p).1 = FileNotFound ∨
   is_parse_error (load fs filename p).1 = true) ∧
  strict_comments_ (load fs filename p).2 = strict_comments_ p.
Proof.
  unfold load. destruct (files fs !! filename) as [text|];
    [|simpl; repeat split; auto].
  unfold load_text.
  destruct (load_lines (strict_comments_ p) (getlines text) ∅ "") as [c x|e c] eqn:Hl; simpl.
  - repeat split; [done..| by left].
  - pose proof (load_lines_error _ _ _ _ _ _ Hl) as He.
    repeat split; [by intros -> | done | by right; right].
Qed.

(** ** Lines that are skipped *)

Lemma logical_line_skipped (strict : bool) (raw : string) :
  detail.trim raw = "" ∨
  front (detail.trim raw) = Some ";"%char ∨ front (detail.trim raw) = Some "#"%char →
  logical_line strict raw = None.
Proof.
  unfold logical_line. intros Hskip.
  destruct (empty (detail.trim raw)) eqn:He; [done|].
  destruct Hskip as [Hblank|[-> | ->]]; simpl; [|done..].
  by rewrite Hblank in He.
Qed.

(** X10: a blank line and a line that begins, after blanks, with [;] or
    [#] change nothing: the load goes on as if the line were not in the
    file. *)
Theorem load_ignores_blank_and_comment_lines (strict : bool) (raw : string)
    (before after : list string) (cfg : Config) (section : string) :
  detail.trim raw = "" ∨
  front (detail.trim raw) = Some ";"%char ∨ front (detail.trim raw) = Some "#"%char →
  load_lines strict (before ++ raw :: after) cfg section =
    load_lines strict (before ++ after) cfg section.
Proof.
  intros Hskip. rewrite !load_lines_app.
  destruct (load_lines strict before cfg section) as [c x|]; [|done].
  simpl. unfold load_line. by rewrite (logical_line_skipped strict raw Hskip).
Qed.

Lemma load_ignores_blank_and_comment_lines_witness :
  load_lines true (["a=1"] ++ "  # note" :: ["b=2"]) ∅ "" =
    load_lines true (["a=1"] ++ ["b=2"]) ∅ "".
Proof.
  apply (load_ignores_blank_and_comment_lines true "  # note" ["a=1"] ["b=2"] ∅ "").
  right. right. reflexivity.
Defined.

(** ** The comment mode *)

Lemma comment_scan_none (strict : bool) (line : string) (i : nat) (prev : option ascii)
    (inside_single_quote inside_double_quote : bool) :
  all_chars (λ ch, negb (is_comment_char ch)) line = true →
  comment_scan strict line i prev inside_single_quote inside_double_quote = None.
Proof.
  revert i prev inside_single_quote inside_double_quote.
  induction line as [|ch line IH]; intros i prev isq idq; [done|]. simpl.
  intros [Hch Hline]%andb_true_iff. apply negb_true_iff in Hch. rewrite Hch. simpl.
  by apply IH.
Qed.

Lemma logical_line_mode (raw : string) :
  all_chars (λ ch, negb (is_comment_char ch)) raw = true →
  logical_line true raw = logical_line false raw.
Proof.
  intros Hraw. destruct (trim_split raw) as (p & q & Hsplit & _ & _).
  rewrite Hsplit, !all_chars_append in Hraw.
  apply andb_true_iff in Hraw as [_ [Hmid _]%andb_true_iff].
  unfold logical_line, commentPos. by rewrite !comment_scan_none.
Qed.

Lemma getlines_all_chars (P : ascii → bool) (text : string) :
  all_chars P text = true → Forall (λ line, all_chars P line = true) (getlines text).
Proof.
  induction text as [|ch text IH]; simpl; [by constructor|].
  intros [Hch Htext]%andb_true_iff. specialize (IH Htext).
  destruct (Ascii.eqb ch newline); [by constructor|].
  destruct (getlines text) as [|line lines]; [repeat constructor; simpl; by rewrite Hch|].
  inversion IH as [|? ? Hline Hlines]; subst. constructor; [|done].
  simpl. by rewrite Hch, Hline.
Qed.

Lemma load_lines_mode (lines : list string) (cfg : Config) (section : string) :
  Forall (λ line, all_chars (λ ch, negb (is_comment_char ch)) line = true) lines →
  load_lines true lines cfg section = load_lines false lines cfg section.
Proof.
  intros Hall. revert cfg section.
  induction Hall as [|raw lines Hraw _ IH]; intros cfg section; [done|].
  simpl. unfold load_line. rewrite (logical_line_mode raw Hraw).
  destruct (logical_line false raw) as [line|]; [|apply IH].
  destruct (load_logical cfg section line); [apply IH | done].
Qed.

(** X11: the comment mode matters only to files that hold a [;] or a
    [#]: a text without these characters loads alike in strict and in
    relaxed mode. *)
Theorem load_mode_irrelevant_without_comment_chars (text : string) :
  all_chars (λ ch, negb (is_comment_char ch)) text = true →
  load_text true text = load_text false text.
Proof.
  intros Htext. unfold load_text.
  by rewrite (load_lines_mode _ _ _ (getlines_all_chars _ _ Htext)).
Qed.

Lemma load_mode_irrelevant_without_comment_chars_witness :
  load_text true "[s]" = load_text false "[s]".
Proof. apply (load_mode_irrelevant_without_comment_chars "[s]"). reflexivity. Defined.

(** ** Names kept by the document *)

Lemma put_entry_section (cfg : Config) (section key value : string) :
  put_entry cfg section key value !! section =
    Some (<[key := value]> (default ∅ (cfg !! section))).
Proof. unfold put_entry. by rewrite lookup_insert_eq. Qed.

Lemma put_entry_other (cfg : Config) (section key value other : string) :
  other ≠ section → put_entry cfg section key value !! other = cfg !! other.
Proof. intros Hne. unfold put_entry. by rewrite lookup_insert_ne. Qed.

Lemma store_entry_result (cfg : Config) (section key value : string) :
  result_config (store_entry cfg section key value) = cfg ∨
  result_config (store_entry cfg section key value) = put_entry cfg section key value.
Proof.
  destruct (lookup_entry cfg section key) as [old|] eqn:Hk.
  - left. by rewrite (store_entry_duplicate _ _ _ _ _ Hk).
  - right. by rewrite (store_entry_put _ _ _ _ Hk).
Qed.

Lemma names_trimmed_empty : names_trimmed ∅.
Proof. intros s pairs H. by rewrite lookup_empty in H. Qed.

Lemma names_trimmed_put (cfg : Config) (section key value : string) :
  names_trimmed cfg → detail.trim section = section →
  detail.trim key = key → key ≠ "" →
  names_trimmed (put_entry cfg section key value).
Proof.
  intros Hcfg Hs Hk Hne s pairs. destruct (decide (s = section)) as [->|Hother].
  - rewrite put_entry_section. intros [= <-]. split; [done|].
    intros k v. destruct (decide (k = key)) as [->|Hkey]; [done|].
    rewrite lookup_insert_ne by done.
    destruct (cfg !! section) as [old|] eqn:Hold; simpl; [|by rewrite lookup_empty].
    apply (Hcfg _ _ Hold).
  - rewrite put_entry_other by done. apply Hcfg.
Qed.

Lemma load_line_names (strict : bool) (cfg : Config) (section raw : string) :
  names_trimmed cfg → detail.trim section = section →
  names_trimmed (result_config (load_line strict cfg section raw)) ∧
  ∀ cfg' section', load_line strict cfg section raw = Continue cfg' section' →
                   detail.trim section' = section'.
Proof.
  intros Hcfg Hs.
  destruct (load_line_outcome strict cfg section raw)
    as [(x & -> & Hx)|[(e & -> & _)|(k & v & Hne & Hk & ->)]].
  - split; [done|]. intros c x' [= _ <-]. by destruct Hx as [->|[_ ?]].
  - split; [done|]. by intros c x'.
  - split.
    + destruct (store_entry_result cfg section k v) as [-> | ->]; [done|].
      by apply names_trimmed_put.
    + intros c x' Hst. by destruct (store_entry_continue _ _ _ _ _ _ Hst) as (-> & _).
Qed.

Lemma load_lines_names (strict : bool) (lines : list string) (cfg : Config)
    (section : string) :
  names_trimmed cfg → detail.trim section = section →
  names_trimmed (result_config (load_lines strict lines cfg section)).
Proof.
  revert cfg section. induction lines as [|raw lines IH]; intros cfg section Hcfg Hs; [done|].
  simpl. destruct (load_line_names strict cfg section raw Hcfg Hs) as [Hstep Hsec].
  destruct (load_line strict cfg section raw) as [c x|e c]; [|done].
  apply IH; [done|]. by apply (Hsec c x).
Qed.

Lemma load_names (fs : FileSystem) (filename : string) (p : Parser) :
  names_trimmed (config p) → names_trimmed (config (load fs filename p).2).
Proof.
  intros Hp. unfold load. destruct (files fs !! filename) as [text|]; [|done].
  unfold load_text.
  pose proof (load_lines_names (strict_comments_ p) (getlines text) ∅ ""
                names_trimmed_empty eq_refl) as H.
  by destruct (load_lines (strict_comments_ p) (getlines text) ∅ "").
Qed.

(** What [set] returns, the access [config[trimmedSection]] resolved. *)
Lemma set_result (p : Parser) (section key value : string) :
  set p section key value =
    if empty (detail.trim key) then (EmptyKey, p)
    else match find_first_of ["["%char; "]"%char] (detail.trim section) with
         | Some _ => (InvalidSection, p)
         | None =>
             (Success,
              {| config := put_entry (config p) (detail.trim section) (detail.trim key) value;
                 strict_comments_ := strict_comments_ p |})
         end.
Proof.
  unfold set, index_section, put_entry. destruct (empty _); [done|].
  destruct (find_first_of _ _); [done|].
  destruct (config p !! detail.trim section); simpl; [done|].
  by rewrite insert_insert_eq.
Qed.

Lemma set_names (p : Parser) (section key value : string) :
  names_trimmed (config p) → names_trimmed (config (set p section key value).2).
Proof.
  intros Hp. rewrite set_result. destruct (empty _) eqn:He; [done|].
  destruct (find_first_of _ _); [done|]. simpl.
  apply names_trimmed_put; [done | apply trim_trim | apply trim_trim |].
  intros Hk. apply empty_true in Hk. congruence.
Qed.

(** X12: whatever is loaded or set, the names in the document are
    trimmed: after any run of calls on a new parser no section name and
    no key begins or ends with whitespace, and no key is empty. *)
Theorem data_names_trimmed (strict : bool) (fs : FileSystem) (calls : list Call) :
  names_trimmed (data (run calls (fs, new_parser strict)).2).
Proof.
  unfold data.
  assert (∀ st, names_trimmed (config st.2) → names_trimmed (config (run calls st).2)) as H.
  { induction calls as [|c calls IH]; intros st Hst; [done|].
    apply IH. destruct st as [fs' p]. destruct c; simpl;
      [by apply load_names | by apply set_names | done]. }
  apply H. apply names_trimmed_empty.
Qed.

(** ** What a successful load holds *)

(** X13: when [load] succeeds, every well-formed key-value line of the
    file can be read back: [get] returns the decoded value of the line
    under the key of the line and the section that was current there. *)
Theorem load_then_get (strict : bool) (text : string) (before after : list string)
    (raw : string) (cfg0 cfg : Config) (section key value defaultValue : string) :
  load_text strict text = (Success, cfg) →
  getlines text = before ++ raw :: after →
  load_lines strict before ∅ "" = Continue cfg0 section →
  line_entry strict raw = Some (key, value) →
  get {| config := cfg; strict_comments_ := strict |} section key defaultValue = value.
Proof.
  unfold load_text. intros Hload Hlines Hbefore Hentry.
  rewrite Hlines, load_lines_app, Hbefore in Hload. simpl in Hload.
  rewrite (load_line_entry _ _ _ _ _ _ Hentry) in Hload.
  destruct (store_entry cfg0 section key value) as [c x|e c] eqn:Hst;
    [|by destruct (store_entry_return _ _ _ _ _ _ Hst) as (-> & _)].
  destruct (store_entry_continue _ _ _ _ _ _ Hst) as (-> & _ & ->).
  destruct (load_lines strict after _ section) as [c' x'|e c'] eqn:Hafter;
    [|pose proof (load_lines_error _ _ _ _ _ _ Hafter) as He;
      injection Hload as -> _; done].
  injection Hload as <-.
  assert (lookup_entry c' section key = Some value) as Hheld.
  { eapply load_lines_keeps; [done|].
    unfold lookup_entry. rewrite lookup_insert_eq. simpl. by rewrite lookup_insert_eq. }
  unfold get, lookup_entry in *. simpl.
  destruct (c' !! section) as [pairs|]; simpl in *; [|done]. by rewrite Hheld.
Qed.

Lemma load_then_get_witness :
  get {| config := {[ "s" := {[ "k" := "a b" ]} ]}; strict_comments_ := true |}
      "s" "k" "none" = "a b".
Proof.
  apply (load_then_get true ("[s]" +:+ String newline "k = 'a b' ; note")
           ["[s]"] [] "k = 'a b' ; note" ∅ _ "s" "k" "a b" "none");
    vm_compute; reflexivity.
Defined.

(** ** Successive calls of [set] *)

Lemma put_entry_twice (cfg : Config) (section key value1 value2 : string) :
  put_entry (put_entry cfg section key value1) section key value2 =
    put_entry cfg section key value2.
Proof.
  unfold put_entry. rewrite lookup_insert_eq. simpl.
  by rewrite !insert_insert_eq.
Qed.

Lemma put_entry_commute (cfg : Config) (s1 k1 v1 s2 k2 v2 : string) :
  (s1, k1) ≠ (s2, k2) →
  put_entry (put_entry cfg s1 k1 v1) s2 k2 v2 = put_entry (put_entry cfg s2 k2 v2) s1 k1 v1.
Proof.
  intros Hne. unfold put_entry. destruct (decide (s1 = s2)) as [->|Hs].
  - rewrite !lookup_insert_eq, !insert_insert_eq. simpl.
    f_equal. apply insert_insert_ne. congruence.
  - rewrite !lookup_insert_ne by done. by apply insert_insert_ne.
Qed.

(** X14: the last [set] wins: setting a key twice, with the same section
    and key arguments, gives the same result and the same document as
    setting it once to the second value. *)
Theorem set_twice (p : Parser) (section key value1 value2 : string) :
  set (set p section key value1).2 section key value2 = set p section key value2.
Proof.
  rewrite !set_result. destruct (empty _); [done|].
  destruct (find_first_of _ _); [done|]. simpl. by rewrite put_entry_twice.
Qed.

(** X15: two calls of [set] that address different entries (after
    trimming) can be made in either order: the parser is the same. *)
Theorem set_commute (p : Parser) (s1 k1 v1 s2 k2 v2 : string) :
  (detail.trim s1, detail.trim k1) ≠ (detail.trim s2, detail.trim k2) →
  (set (set p s1 k1 v1).2 s2 k2 v2).2 = (set (set p s2 k2 v2).2 s1 k1 v1).2.
Proof.
  intros Hne. rewrite !set_result.
  destruct (empty (detail.trim k1)), (empty (detail.trim k2)); simpl; try done;
    destruct (find_first_of _ (detail.trim s1)), (find_first_of _ (detail.trim s2));
    simpl; try done.
  f_equal. by apply put_entry_commute.
Qed.

Lemma set_commute_witness :
  (set (set default_parser "a" "x" "1").2 "b" "x" "2").2 =
  (set (set default_parser "b" "x" "2").2 "a" "x" "1").2.
Proof. apply (set_commute default_parser "a" "x" "1" "b" "x" "2"). discriminate. Defined.

(** ** Substrings and searches in concatenations *)

Lemma substring_prefix (a b : string) :
  String.substring 0 (String.length a) (a +:+ b) = a.
Proof. induction a as [|c a IH]; simpl; [by destruct b | by rewrite IH]. Qed.

Lemma substring_skip (a b : string) (n m : nat) :
  String.substring (String.length a + n) m (a +:+ b) = String.substring n m b.
Proof. induction a as [|c a IH]; simpl; [done | apply IH]. Qed.

Lemma find_append (ch : ascii) (a rest : string) :
  all_chars (λ c, negb (Ascii.eqb c ch)) a = true →
  find ch (a +:+ String ch rest) = Some (String.length a).
Proof.
  induction a as [|c a IH]; simpl.
  - intros _. by rewrite Ascii.eqb_refl.
  - intros [Hc Ha]%andb_true_iff. apply negb_true_iff in Hc. by rewrite Hc, (IH Ha).
Qed.

Lemma all_chars_front (P : ascii → bool) (s : string) (c : ascii) :
  all_chars P s = true → front s = Some c → P c = true.
Proof. destruct s; simpl; [done|]. by intros [? _]%andb_true_iff [= <-]. Qed.

Lemma all_chars_back (P : ascii → bool) (s : string) (c : ascii) :
  all_chars P s = true → back s = Some c → P c = true.
Proof.
  induction s as [|x s IH]; [done|]. rewrite back_cons.
  intros [Hx Hs]%andb_true_iff. destruct (back s) as [y|]; intros [= <-]; auto.
Qed.

Lemma all_chars_clean (s : string) :
  all_chars (λ ch, negb (isspace ch)) s = true →
  starts_clean s = true ∧ ends_clean s = true.
Proof.
  intros Hs. unfold starts_clean, ends_clean. split.
  - destruct (front s) as [c|] eqn:Hc; [|done]. apply (all_chars_front _ _ _ Hs Hc).
  - destruct (back s) as [c|] eqn:Hc; [|done]. apply (all_chars_back _ _ _ Hs Hc).
Qed.

(** ** Plain names and written values *)

Lemma name_char_spec (ch : ascii) :
  name_char ch = true →
  isspace ch = false ∧ is_comment_char ch = false ∧ is_quote ch = false ∧
  Ascii.eqb ch "=" = false ∧ Ascii.eqb ch "[" = false ∧ Ascii.eqb ch "]" = false.
Proof.
  unfold name_char. rewrite !andb_true_iff, !negb_true_iff. tauto.
Qed.

Lemma bare_char_spec (ch : ascii) :
  bare_char ch = true →
  isspace ch = false ∧ is_comment_char ch = false ∧ is_quote ch = false.
Proof. unfold bare_char. rewrite !andb_true_iff, !negb_true_iff. tauto. Qed.

Lemma isspace_newline (ch : ascii) : isspace ch = false → Ascii.eqb ch newline = false.
Proof. destruct (Ascii.eqb_spec ch newline) as [->|]; [by vm_compute | done]. Qed.

Lemma plain_name_spec (s : string) :
  plain_name s = true → s ≠ "" ∧ all_chars name_char s = true.
Proof.
  unfold plain_name. intros [He Hs]%andb_true_iff. split; [|done].
  intros ->. done.
Qed.

Lemma escape_no_dquote (v : string) :
  no_dquote v = true → no_dquote (detail.escape v) = true.
Proof.
  unfold no_dquote. induction v as [|c v IH]; [done|]. simpl.
  intros [Hc Hv]%andb_true_iff. rewrite escape_cons, all_chars_append, (IH Hv).
  rewrite andb_true_r. apply negb_true_iff in Hc. unfold detail.escape_switch. rewrite Hc.
  repeat match goal with |- context [if ?b then _ else _] => destruct b end;
    try reflexivity. simpl. by rewrite Hc.
Qed.

(** ** The comment scan of written lines *)

Lemma comment_scan_inside_double (strict : bool) (body : string) (i : nat)
    (prev : option ascii) :
  no_dquote body = true →
  comment_scan strict (body +:+ String dquote "") i prev false true = None.
Proof.
  unfold no_dquote. revert i prev. induction body as [|ch body IH]; intros i prev; [done|].
  simpl. intros [Hch Hbody]%andb_true_iff. apply negb_true_iff in Hch.
  rewrite Hch. simpl. rewrite !andb_false_r. simpl. by apply IH.
Qed.

Lemma comment_scan_before_quote (strict : bool) (a body : string) (i : nat)
    (prev : option ascii) :
  all_chars (λ ch, negb (is_comment_char ch) && negb (is_quote ch)) a = true →
  no_dquote body = true →
  comment_scan strict (a +:+ String dquote (body +:+ String dquote "")) i prev false false
    = None.
Proof.
  intros Ha Hbody. revert i prev. induction a as [|ch a IH]; intros i prev.
  - simpl. by apply comment_scan_inside_double.
  - simpl in Ha. apply andb_true_iff in Ha as [Hch Ha].
    apply andb_true_iff in Hch as [Hc Hq]. apply negb_true_iff in Hc, Hq.
    unfold is_quote in Hq. apply orb_false_iff in Hq as [Hd Hs].
    simpl. rewrite Hd, Hs, Hc. simpl. by apply IH.
Qed.

(** ** Written lines, read back *)

Lemma substring_all (s : string) : String.substring 0 (String.length s) s = s.
Proof. rewrite <- (append_empty_r s) at 2. apply substring_prefix. Qed.

Lemma starts_clean_append (a b : string) :
  a ≠ "" → starts_clean a = true → starts_clean (a +:+ b) = true.
Proof. unfold starts_clean. rewrite front_append. by destruct a. Qed.

Lemma ends_clean_append (a b : string) :
  b ≠ "" → ends_clean b = true → ends_clean (a +:+ b) = true.
Proof.
  unfold ends_clean. rewrite back_append. intros Hb.
  destruct (back b) eqn:Hback; [done|]. by apply back_None in Hback.
Qed.

(** A line that is already trimmed, does not open with a comment
    character and shows no comment to the scan is kept as it is. *)
Lemma logical_line_id (strict : bool) (line : string) (first : ascii) :
  front line = Some first → is_comment_char first = false →
  starts_clean line = true → ends_clean line = true →
  commentPos strict line = None →
  logical_line strict line = Some line.
Proof.
  intros Hfront Hfirst Hs He Hscan. unfold logical_line.
  rewrite (trim_id _ Hs He), Hscan, Hfront. simpl.
  unfold is_comment_char in Hfirst. apply orb_false_iff in Hfirst as [-> ->].
  by destruct line.
Qed.

(** The line [key=raw], for a plain key and a raw value that is trimmed,
    assigns to the key what the raw value decodes to. *)
Lemma line_entry_written (strict : bool) (key raw value : string) :
  plain_name key = true →
  starts_clean raw = true → ends_clean raw = true →
  commentPos strict (key +:+ "=" +:+ raw) = None →
  decode_value raw = Some value →
  line_entry strict (key +:+ "=" +:+ raw) = Some (key, value).
Proof.
  intros [Hne Hkey]%plain_name_spec Hrs Hre Hscan Hdec.
  destruct key as [|c key]; [done|].
  pose proof Hkey as Hc. simpl in Hc. apply andb_true_iff in Hc as [Hc _].
  apply name_char_spec in Hc as (Hsp & Hcc & _ & _ & Hbr & _).
  assert (all_chars (λ ch, negb (isspace ch)) (String c key) = true) as Hnosp.
  { eapply all_chars_impl; [|exact Hkey]. intros x Hx.
    apply name_char_spec in Hx as (-> & _). done. }
  destruct (all_chars_clean _ Hnosp) as [Hks Hke].
  set (line := String c key +:+ "=" +:+ raw) in *.
  assert (logical_line strict line = Some line) as Hline.
  { apply (logical_line_id strict line c); [done | done | | | done].
    - by apply starts_clean_append.
    - apply ends_clean_append; [done|]. unfold ends_clean.
      change ("=" +:+ raw) with (String "=" raw). rewrite back_cons.
      unfold ends_clean in Hre. by destruct (back raw). }
  unfold line_entry. rewrite Hline.
  assert (is_header line = false) as ->.
  { unfold is_header. simpl. by rewrite Hbr. }
  assert (find "=" line = Some (String.length (String c key))) as ->.
  { apply find_append. eapply all_chars_impl; [|exact Hkey]. intros x Hx.
    apply name_char_spec in Hx as (_ & _ & _ & -> & _). done. }
  assert (substr 0 (String.length (String c key)) line = String c key) as ->
    by apply substring_prefix.
  assert (substr_from (String.length (String c key) + 1) line = raw) as ->.
  { unfold substr_from, line. rewrite length_append, substring_skip.
    change ("=" +:+ raw) with (String "=" raw). simpl String.length.
    replace (S (String.length key) + S (String.length raw) - (S (String.length key) + 1))
      with (String.length raw) by lia.
    simpl. apply substring_all. }
  rewrite (trim_id _ Hks Hke), (trim_id _ Hrs Hre), Hdec. done.
Qed.

Lemma line_entry_bare (strict : bool) (key value : string) :
  plain_name key = true → all_chars bare_char value = true →
  line_entry strict (key +:+ "=" +:+ value) = Some (key, value).
Proof.
  intros Hkey Hvalue.
  assert (all_chars (λ ch, negb (isspace ch)) value = true) as Hnosp.
  { eapply all_chars_impl; [|exact Hvalue]. intros x Hx.
    apply bare_char_spec in Hx as (-> & _). done. }
  destruct (all_chars_clean _ Hnosp) as [Hs He].
  apply line_entry_written; [done..| |].
  - apply comment_scan_none. destruct (plain_name_spec _ Hkey) as [_ Hk].
    rewrite !all_chars_append. apply andb_true_iff. split; [|apply andb_true_iff; split].
    + eapply all_chars_impl; [|exact Hk]. intros x Hx.
      apply name_char_spec in Hx as (_ & -> & _). done.
    + done.
    + eapply all_chars_impl; [|exact Hvalue]. intros x Hx.
      apply bare_char_spec in Hx as (_ & -> & _). done.
  - unfold decode_value. destruct (front value) as [c|] eqn:Hc; [|done].
    pose proof (all_chars_front _ _ _ Hvalue Hc) as Hb.
    apply bare_char_spec in Hb as (_ & _ & ->). done.
Qed.

Lemma line_entry_quoted (strict : bool) (key value : string) :
  plain_name key = true → no_dquote value = true →
  line_entry strict (key +:+ "=" +:+ quoted (detail.escape value)) = Some (key, value).
Proof.
  intros Hkey Hvalue. unfold quoted.
  set (e := detail.escape value).
  apply line_entry_written; [done | done | | |].
  - unfold ends_clean. change (String dquote e +:+ String dquote "")
      with (String dquote (e +:+ String dquote "")).
    by rewrite back_cons, back_append.
  - change (String dquote e +:+ String dquote "")
      with (String dquote (e +:+ String dquote "")).
    unfold commentPos. rewrite <- append_assoc.
    apply comment_scan_before_quote; [|by apply escape_no_dquote].
    destruct (plain_name_spec _ Hkey) as [_ Hk].
    rewrite all_chars_append. apply andb_true_iff. split; [|done].
    eapply all_chars_impl; [|exact Hk]. intros x Hx.
    apply name_char_spec in Hx as (_ & -> & -> & _). done.
  - unfold decode_value. simpl front. cbv iota.
    change (is_quote dquote) with true. cbv iota.
    change (String dquote e +:+ String dquote "")
      with (String dquote (e +:+ String dquote "")).
    simpl String.length. rewrite length_append. simpl String.length.
    rewrite back_cons, back_append. simpl back.
    change (is_char (Some dquote) dquote) with true. simpl negb.
    replace (S (String.length e + 1) <? 2) with false
      by (symmetry; apply Nat.ltb_ge; lia).
    simpl orb. cbv iota. unfold substr.
    replace (S (String.length e + 1) - 2) with (String.length e) by lia.
    simpl String.substring. rewrite substring_prefix.
    unfold detail.unescape, e. by rewrite unescape_loop_escape.
Qed.

(** X16: a value written between double quotes, escaped, is read back
    whole in both comment modes, whatever it holds besides a double
    quote: semicolons, hashes, blanks and single quotes in it are
    neither comments nor quotes. *)
Theorem quoted_value_read_back (strict : bool) (key value : string) :
  plain_name key = true → no_dquote value = true →
  line_entry strict (key +:+ "=" +:+ quoted (detail.escape value)) = Some (key, value) ∧
  ∀ (cfg : Config) (section : string),
    lookup_entry cfg section key = None →
    load_line strict cfg section (key +:+ "=" +:+ quoted (detail.escape value)) =
      Continue (put_entry cfg section key value) section.
Proof.
  intros Hkey Hvalue. pose proof (line_entry_quoted strict key value Hkey Hvalue) as H.
  split; [done|]. intros cfg section Hfree.
  rewrite (load_line_entry _ _ _ _ _ _ H). by apply store_entry_put.
Qed.

Lemma quoted_value_read_back_witness :
  line_entry true ("k" +:+ "=" +:+ quoted (detail.escape "a ; b # 'c'")) =
    Some ("k", "a ; b # 'c'") ∧
  ∀ (cfg : Config) (section : string),
    lookup_entry cfg section "k" = None →
    load_line true cfg section ("k" +:+ "=" +:+ quoted (detail.escape "a ; b # 'c'")) =
      Continue (put_entry cfg section "k" "a ; b # 'c'") section.
Proof. apply (quoted_value_read_back true "k" "a ; b # 'c'"); reflexivity. Defined.

Lemma line_entry_entry_line (strict : bool) (key value : string) :
  plain_name key = true → portable_value value = true →
  line_entry strict (entry_line (key, value)) = Some (key, value).
Proof.
  unfold portable_value, entry_line, written_value. simpl. intros Hkey.
  destruct (needsQuotes value); [apply (line_entry_quoted strict key value Hkey)|].
  by apply line_entry_bare.
Qed.

Lemma load_header_line (strict : bool) (cfg : Config) (current section : string) :
  plain_name section = true →
  load_line strict cfg current (header_line section) = Continue cfg section.
Proof.
  intros [Hne Hname]%plain_name_spec. unfold header_line.
  assert (all_chars (λ ch, negb (isspace ch)) section = true) as Hnosp.
  { eapply all_chars_impl; [|exact Hname]. intros x Hx.
    apply name_char_spec in Hx as (-> & _). done. }
  destruct (all_chars_clean _ Hnosp) as [Hs He].
  set (line := "[" +:+ section +:+ "]").
  assert (back line = Some "]"%char) as Hback.
  { unfold line. change ("[" +:+ section +:+ "]") with (String "[" (section +:+ "]")).
    by rewrite back_cons, back_append. }
  assert (logical_line strict line = Some line) as Hline.
  { apply (logical_line_id strict line "["); [done | done | done | |].
    - unfold ends_clean. by rewrite Hback.
    - apply comment_scan_none. unfold line.
      change ("[" +:+ section +:+ "]") with (String "[" (section +:+ "]")).
      simpl. rewrite all_chars_append, andb_true_r.
      eapply all_chars_impl; [|exact Hname]. intros x Hx.
      apply name_char_spec in Hx as (_ & -> & _). done. }
  unfold load_line. rewrite Hline. unfold load_logical, is_header. rewrite Hback.
  simpl is_char. simpl andb. cbv iota.
  assert (substr 1 (String.length line - 2) line = section) as ->.
  { unfold substr, line.
    change ("[" +:+ section +:+ "]") with (String "[" (section +:+ "]")).
    simpl String.length. rewrite length_append. simpl String.length.
    replace (S (String.length section + 1) - 2) with (String.length section) by lia.
    simpl. apply substring_prefix. }
  rewrite (trim_id _ Hs He). by destruct section.
Qed.

(** ** The text that [save] writes, as lines *)

Lemma concat_strings_app (a b : list string) :
  concat_strings (a ++ b) = concat_strings a +:+ concat_strings b.
Proof.
  induction a as [|x a IH]; [done|]. unfold concat_strings in *. simpl foldr.
  by rewrite IH, append_assoc.
Qed.

Lemma file_of_lines_cons (line : string) (lines : list string) :
  file_of_lines (line :: lines) = line +:+ String newline (file_of_lines lines).
Proof.
  unfold file_of_lines, concat_strings. simpl foldr. by rewrite append_assoc.
Qed.

Lemma file_of_lines_app (a b : list string) :
  file_of_lines (a ++ b) = file_of_lines a +:+ file_of_lines b.
Proof. unfold file_of_lines. by rewrite fmap_app, concat_strings_app. Qed.

Lemma getlines_line (line rest : string) :
  all_chars (λ ch, negb (Ascii.eqb ch newline)) line = true →
  getlines (line +:+ String newline rest) = line :: getlines rest.
Proof.
  induction line as [|ch line IH]; simpl; [done|].
  intros [Hch Hline]%andb_true_iff. apply negb_true_iff in Hch.
  by rewrite Hch, (IH Hline).
Qed.

Lemma getlines_file_of_lines (lines : list string) :
  Forall (λ line, all_chars (λ ch, negb (Ascii.eqb ch newline)) line = true) lines →
  getlines (file_of_lines lines) = lines.
Proof.
  induction 1 as [|line lines Hline _ IH]; [done|].
  by rewrite file_of_lines_cons, (getlines_line _ _ Hline), IH.
Qed.

Lemma write_pair_line (kv : string * string) :
  write_pair kv = entry_line kv +:+ String newline "".
Proof.
  destruct kv as [key value]. unfold write_pair, entry_line, written_value. simpl.
  by rewrite !append_assoc.
Qed.

Lemma write_pairs_lines (pairs : SectionMap) :
  write_pairs pairs = file_of_lines (pair_lines pairs).
Proof.
  unfold write_pairs, pair_lines. rewrite file_of_lines_app. f_equal.
  unfold file_of_lines. rewrite <- list_fmap_compose. f_equal.
  apply list_fmap_ext. intros _ kv _. apply write_pair_line.
Qed.

Lemma write_section_lines (entry : string * SectionMap) :
  write_section entry = file_of_lines (section_lines entry).
Proof.
  destruct entry as [section pairs]. unfold write_section, section_lines. simpl.
  destruct (empty section); [done|].
  rewrite file_of_lines_cons, write_pairs_lines. unfold header_line.
  by rewrite !append_assoc.
Qed.

Lemma concat_strings_sections (entries : list (string * SectionMap)) :
  concat_strings (write_section <$> entries) =
    file_of_lines (concat (section_lines <$> entries)).
Proof.
  induction entries as [|entry entries IH]; [done|].
  rewrite !fmap_cons. simpl concat.
  rewrite file_of_lines_app, <- IH, <- write_section_lines. done.
Qed.

Lemma save_text_lines (cfg : Config) : save_text cfg = file_of_lines (save_lines cfg).
Proof.
  unfold save_text, save_lines, global_lines.
  rewrite file_of_lines_app, concat_strings_sections. f_equal.
  destruct (cfg !! "") as [pairs|]; [|done].
  destruct (decide (pairs = ∅)); [done | apply write_pairs_lines].
Qed.

(** ** Portable documents *)

Lemma portable_pairs_spec (pairs : SectionMap) :
  portable_pairs pairs = true ↔
  pairs ≠ ∅ ∧ ∀ key value, pairs !! key = Some value →
                plain_name key = true ∧ portable_value value = true.
Proof.
  unfold portable_pairs. rewrite andb_true_iff, negb_true_iff, bool_decide_eq_false.
  rewrite forallb_forall. split; intros [Hne Hall]; (split; [done|]).
  - intros key value Hkv. apply andb_true_iff.
    apply (Hall (key, value)). apply list_elem_of_In. by apply elem_of_map_to_list.
  - intros [key value] Hin%list_elem_of_In%elem_of_map_to_list.
    apply andb_true_iff. by apply Hall.
Qed.

Lemma portable_iff (cfg : Config) : portable cfg = true ↔ portable_entries cfg.
Proof.
  unfold portable, portable_entries. rewrite forallb_forall. split.
  - intros Hall section pairs Hs.
    assert (In (section, pairs) (map_to_list cfg)) as Hin
      by (by apply list_elem_of_In, elem_of_map_to_list).
    apply Hall in Hin. simpl in Hin. apply andb_true_iff in Hin as [Hname Hpairs].
    apply portable_pairs_spec in Hpairs as [Hne Hkv]. split; [done|]. split; [|done].
    apply orb_true_iff in Hname as [He|Hp]; [left; by apply empty_true | by right].
  - intros Hall [section pairs] Hin%list_elem_of_In%elem_of_map_to_list.
    destruct (Hall _ _ Hin) as (Hne & Hname & Hkv). simpl.
    apply andb_true_iff. split; [|by apply portable_pairs_spec].
    apply orb_true_iff. destruct Hname as [->|Hp]; [by left | by right].
Qed.

(** ** Written lines hold no newline *)

Lemma no_space_no_newline (s : string) :
  all_chars (λ ch, negb (isspace ch)) s = true →
  all_chars (λ ch, negb (Ascii.eqb ch newline)) s = true.
Proof.
  apply all_chars_impl. intros c Hc. apply negb_true_iff in Hc.
  by rewrite (isspace_newline c Hc).
Qed.

Lemma plain_name_no_newline (s : string) :
  plain_name s = true → all_chars (λ ch, negb (Ascii.eqb ch newline)) s = true.
Proof.
  intros [_ Hs]%plain_name_spec. apply no_space_no_newline.
  eapply all_chars_impl; [|exact Hs]. intros x Hx.
  apply name_char_spec in Hx as (-> & _). done.
Qed.

Lemma escape_no_newline (s : string) :
  all_chars (λ ch, negb (Ascii.eqb ch newline)) (detail.escape s) = true.
Proof.
  induction s as [|c s IH]; [done|]. rewrite escape_cons, all_chars_append, IH, andb_true_r.
  eapply all_chars_impl; [|apply escape_switch_single_line].
  intros x Hx. unfold is_line_break in Hx. apply negb_true_iff in Hx.
  apply orb_false_iff in Hx as [[-> _]%orb_false_iff _]. done.
Qed.

Lemma written_value_no_newline (value : string) :
  portable_value value = true →
  all_chars (λ ch, negb (Ascii.eqb ch newline)) (written_value value) = true.
Proof.
  unfold portable_value, written_value. destruct (needsQuotes value); intros Hv.
  - change (String dquote (detail.escape value) +:+ String dquote "")
      with (String dquote (detail.escape value +:+ String dquote "")).
    simpl. by rewrite all_chars_append, escape_no_newline.
  - apply no_space_no_newline. eapply all_chars_impl; [|exact Hv]. intros x Hx.
    apply bare_char_spec in Hx as (-> & _). done.
Qed.

Lemma entry_line_no_newline (kv : string * string) :
  plain_name kv.1 = true → portable_value kv.2 = true →
  all_chars (λ ch, negb (Ascii.eqb ch newline)) (entry_line kv) = true.
Proof.
  intros Hk Hv. unfold entry_line. rewrite !all_chars_append.
  by rewrite (plain_name_no_newline _ Hk), (written_value_no_newline _ Hv).
Qed.

Lemma header_line_no_newline (section : string) :
  plain_name section = true →
  all_chars (λ ch, negb (Ascii.eqb ch newline)) (header_line section) = true.
Proof.
  intros Hs. unfold header_line. rewrite !all_chars_append.
  by rewrite (plain_name_no_newline _ Hs).
Qed.

Lemma pair_lines_no_newline (pairs : SectionMap) :
  portable_pairs pairs = true →
  Forall (λ line, all_chars (λ ch, negb (Ascii.eqb ch newline)) line = true)
         (pair_lines pairs).
Proof.
  intros [_ Hkv]%portable_pairs_spec. unfold pair_lines.
  apply Forall_app. split; [|by repeat constructor].
  apply Forall_fmap, Forall_forall. intros [k v] Hin%elem_of_map_to_list.
  destruct (Hkv _ _ Hin). by apply entry_line_no_newline.
Qed.

Lemma save_lines_no_newline (cfg : Config) :
  portable cfg = true →
  Forall (λ line, all_chars (λ ch, negb (Ascii.eqb ch newline)) line = true)
         (save_lines cfg).
Proof.
  intros Hcfg. pose proof (proj1 (portable_iff cfg) Hcfg) as Hall.
  unfold save_lines. apply Forall_app. split.
  - unfold global_lines. destruct (cfg !! "") as [pairs|] eqn:Hg; [|constructor].
    destruct (decide (pairs = ∅)); [constructor|].
    apply pair_lines_no_newline, portable_pairs_spec.
    by destruct (Hall _ _ Hg) as (? & _ & ?).
  - apply Forall_concat, Forall_fmap, Forall_forall.
    intros [section pairs] Hin%elem_of_map_to_list.
    destruct (Hall _ _ Hin) as (Hne & Hname & Hkv).
    unfold section_lines. simpl. destruct (empty section) eqn:He; [constructor|].
    destruct Hname as [->|Hname]; [done|].
    constructor; [by apply header_line_no_newline|].
    by apply pair_lines_no_newline, portable_pairs_spec.
Qed.

(** ** Loading the written lines *)

Lemma lookup_entry_put (cfg : Config) (section key value other : string) :
  other ≠ key →
  lookup_entry (put_entry cfg section key value) section other =
    lookup_entry cfg section other.
Proof.
  intros Hne. unfold lookup_entry. rewrite put_entry_section. simpl.
  rewrite lookup_insert_ne by done. by destruct (cfg !! section).
Qed.

Lemma load_entry_lines (strict : bool) (l : list (string * string)) (rest : list string)
    (cfg : Config) (section : string) :
  Forall (λ kv, plain_name kv.1 = true ∧ portable_value kv.2 = true) l →
  NoDup l.*1 →
  (∀ key, key ∈ l.*1 → lookup_entry cfg section key = None) →
  load_lines strict ((entry_line <$> l) ++ rest) cfg section =
    load_lines strict rest (foldl (λ c kv, put_entry c section kv.1 kv.2) cfg l) section.
Proof.
  intros Hgood. revert cfg. induction Hgood as [|[k v] l [Hk Hv] _ IH]; intros cfg Hdup Hfree;
    [done|].
  simpl in *. apply NoDup_cons in Hdup as [Hnotin Hdup].
  rewrite (load_line_entry strict cfg section _ k v)
    by (by apply line_entry_entry_line).
  rewrite store_entry_put by (apply Hfree; left).
  apply IH; [done|]. intros key Hkey.
  rewrite lookup_entry_put by (intros ->; done). apply Hfree. by right.
Qed.

Lemma foldl_put_entry (l : list (string * string)) (cfg : Config) (section : string) :
  NoDup l.*1 → l ≠ [] →
  foldl (λ c kv, put_entry c section kv.1 kv.2) cfg l =
    <[section := list_to_map l ∪ default ∅ (cfg !! section)]> cfg.
Proof.
  revert cfg. induction l as [|[k v] l IH]; intros cfg Hdup Hne; [done|].
  clear Hne. simpl in *. apply NoDup_cons in Hdup as [Hnotin Hdup].
  destruct l as [|kv l].
  - simpl. unfold put_entry. by rewrite <- insert_union_l, (left_id_L ∅ (∪)).
  - rewrite IH by done. rewrite put_entry_section. simpl default.
    unfold put_entry at 1. rewrite insert_insert_eq. f_equal.
    rewrite <- insert_union_l. symmetry. apply insert_union_r.
    by apply not_elem_of_list_to_map_1.
Qed.

Lemma load_pair_lines (strict : bool) (pairs : SectionMap) (rest : list string)
    (cfg : Config) (section : string) :
  portable_pairs pairs = true → cfg !! section = None →
  load_lines strict (pair_lines pairs ++ rest) cfg section =
    load_lines strict rest (<[section := pairs]> cfg) section.
Proof.
  intros [Hne Hkv]%portable_pairs_spec Hfree. unfold pair_lines.
  rewrite <- app_assoc, load_entry_lines.
  - simpl. rewrite foldl_put_entry.
    + rewrite list_to_map_to_list, Hfree. simpl default.
      by rewrite (right_id_L ∅ (∪)).
    + apply NoDup_fst_map_to_list.
    + intros Hnil. by apply map_to_list_empty_iff in Hnil.
  - apply Forall_forall. intros [k v] Hin%elem_of_map_to_list. by apply Hkv.
  - apply NoDup_fst_map_to_list.
  - intros key _. unfold lookup_entry. by rewrite Hfree.
Qed.

Lemma load_section_lines (strict : bool) (entries : list (string * SectionMap))
    (cfg : Config) (current : string) :
  NoDup entries.*1 →
  Forall (λ entry, (entry.1 = "" ∨ plain_name entry.1 = true) ∧
                   portable_pairs entry.2 = true) entries →
  (∀ entry, entry ∈ entries → entry.1 ≠ "" → cfg !! entry.1 = None) →
  ∃ last, load_lines strict (concat (section_lines <$> entries)) cfg current =
            Continue (foldl store_section cfg entries) last.
Proof.
  intros Hdup Hgood. revert cfg current Hdup.
  induction Hgood as [|[section pairs] entries [Hname Hpairs] _ IH];
    intros cfg current Hdup Hfree; [by eexists|].
  rewrite fmap_cons in Hdup. apply NoDup_cons in Hdup as [Hnotin Hdup].
  rewrite fmap_cons. simpl concat. simpl foldl.
  unfold section_lines at 1, store_section at 2. cbn [fst snd] in *.
  destruct (empty section) eqn:He.
  - simpl. apply IH; [done|]. intros entry Hin. apply Hfree. by right.
  - destruct Hname as [->|Hname]; [done|].
    assert (section ≠ "") as Hne by (intros ->; done).
    rewrite <- app_comm_cons. simpl load_lines.
    rewrite (load_header_line strict cfg current section Hname).
    rewrite load_pair_lines; [|done|].
    + apply IH; [done|]. intros entry Hin Hentry.
      rewrite lookup_insert_ne; [apply Hfree; [by right | done]|].
      intros ->. apply Hnotin. apply list_elem_of_fmap. by exists entry.
    + apply (Hfree (section, pairs)); [by left | done].
Qed.

Lemma foldl_store_section (entries : list (string * SectionMap)) (cfg : Config)
    (section : string) :
  NoDup entries.*1 →
  foldl store_section cfg entries !! section =
    match (if empty section then None
           else (list_to_map entries : Config) !! section) with
    | Some pairs => Some pairs
    | None => cfg !! section
    end.
Proof.
  revert cfg. induction entries as [|[s pairs] entries IH]; intros cfg Hdup.
  - simpl. by destruct (empty section).
  - rewrite fmap_cons in Hdup. apply NoDup_cons in Hdup as [Hnotin Hdup].
    simpl foldl. rewrite IH by done. unfold store_section. cbn [fst snd] in *.
    simpl list_to_map.
    destruct (empty section) eqn:He.
    + destruct (empty s) eqn:Hs; [done|]. rewrite lookup_insert_ne; [done|].
      intros ->. congruence.
    + destruct (decide (s = section)) as [->|Hne].
      * rewrite He, !lookup_insert_eq.
        by rewrite (not_elem_of_list_to_map_1 _ _ Hnotin).
      * rewrite (lookup_insert_ne _ s section) by done.
        destruct (list_to_map entries !! section); [done|].
        destruct (empty s); [done|]. by rewrite lookup_insert_ne.
Qed.

(** Loading the lines that [save] writes for a portable document gives
    the document back. *)
Lemma load_save_lines (strict : bool) (cfg : Config) :
  portable cfg = true →
  ∃ last, load_lines strict (save_lines cfg) ∅ "" = Continue cfg last.
Proof.
  intros Hcfg. pose proof (proj1 (portable_iff cfg) Hcfg) as Hall.
  set (start := match cfg !! "" with
                | Some pairs => <["" := pairs]> (∅ : Config)
                | None => ∅
                end).
  assert (∀ rest, load_lines strict (global_lines cfg ++ rest) ∅ "" =
                  load_lines strict rest start "") as Hglobal.
  { intros rest. unfold global_lines, start.
    destruct (cfg !! "") as [pairs|] eqn:Hg; [|done].
    destruct (Hall _ _ Hg) as (Hne & _ & Hkv).
    destruct (decide (pairs = ∅)); [done|].
    apply load_pair_lines; [by apply portable_pairs_spec | done]. }
  unfold save_lines. rewrite Hglobal.
  destruct (load_section_lines strict (map_to_list cfg) start "") as [last Hlast].
  - apply NoDup_fst_map_to_list.
  - apply Forall_forall. intros [s pairs] Hin%elem_of_map_to_list.
    destruct (Hall _ _ Hin) as (Hne & Hname & Hkv). split; [done|].
    by apply portable_pairs_spec.
  - intros [s pairs] _ Hs. simpl in *. unfold start.
    destruct (cfg !! ""); [by rewrite lookup_insert_ne | done].
  - exists last. rewrite Hlast. f_equal. apply map_eq. intros s.
    rewrite foldl_store_section by apply NoDup_fst_map_to_list.
    rewrite list_to_map_to_list. destruct (empty s) eqn:He.
    + apply empty_true in He as ->. unfold start.
      destruct (cfg !! ""); [by rewrite lookup_insert_eq | done].
    + destruct (cfg !! s); [done|]. unfold start.
      destruct (cfg !! ""); [|done]. rewrite lookup_insert_ne; [done|].
      intros <-. done.
Qed.

Lemma load_text_save_text (strict : bool) (cfg : Config) :
  portable cfg = true → load_text strict (save_text cfg) = (Success, cfg).
Proof.
  intros Hcfg. unfold load_text.
  rewrite save_text_lines, (getlines_file_of_lines _ (save_lines_no_newline _ Hcfg)).
  by destruct (load_save_lines strict cfg Hcfg) as [last ->].
Qed.

(** X17: the round trip holds for portable documents.  When every
    section holds a pair, the section names and keys are plain, and each
    value either is made of bare characters or is one that [save] quotes
    and holds no double quote, then [save] followed by [load] into a new
    parser of the same mode succeeds and gives the same document, in
    strict and in relaxed mode. *)
Theorem save_then_load_portable (filename : string) (p : Parser) :
  portable (data p) = true →
  load_text (strict_comments_ p) (save_text (data p)) = (Success, data p) ∧
  save_then_load filename p = (Success, Success, p).
Proof.
  unfold data. intros Hp.
  pose proof (load_text_save_text (strict_comments_ p) (config p) Hp) as Hload.
  split; [done|]. unfold save_then_load, save, load, no_files. simpl.
  rewrite decide_False by set_solver. simpl.
  rewrite lookup_insert_eq, Hload. by destruct p.
Qed.

Lemma save_then_load_portable_witness :
  let p := {| config := {[ "" := {[ "name" := "a 'b' ; c" ]};
                           "net" := {[ "host" := "example.org"; "port" := "8080" ]} ]};
              strict_comments_ := true |} in
  load_text true (save_text (data p)) = (Success, data p) ∧
  save_then_load "settings.ini" p = (Success, Success, p).
Proof.
  apply (save_then_load_portable "settings.ini"
           {| config := {[ "" := {[ "name" := "a 'b' ; c" ]};
                           "net" := {[ "host" := "example.org"; "port" := "8080" ]} ]};
              strict_comments_ := true |}).
  vm_compute. reflexivity.
Defined.

(** ** Documents built by [set] *)

Lemma portable_entries_put (cfg : Config) (section key value : string) :
  portable_entries cfg →
  section = "" ∨ plain_name section = true →
  plain_name key = true → portable_value value = true →
  portable_entries (put_entry cfg section key value).
Proof.
  intros Hcfg Hs Hk Hv s pairs. destruct (decide (s = section)) as [->|Hother].
  - rewrite put_entry_section. intros [= <-]. split; [apply insert_non_empty|].
    split; [done|]. intros k v. destruct (decide (k = key)) as [->|Hkey].
    + rewrite lookup_insert_eq. by intros [= <-].
    + rewrite lookup_insert_ne by done.
      destruct (cfg !! section) as [old|] eqn:Hold; simpl; [|by rewrite lookup_empty].
      apply (Hcfg _ _ Hold).
  - rewrite put_entry_other by done. apply Hcfg.
Qed.

Lemma plain_name_trim (s : string) : plain_name s = true → detail.trim s = s.
Proof.
  intros [_ Hs]%plain_name_spec. apply trim_id; apply all_chars_clean;
    (eapply all_chars_impl; [|exact Hs]); intros x Hx;
    apply name_char_spec in Hx as (-> & _); done.
Qed.

Lemma plain_name_no_bracket (s : string) :
  all_chars name_char s = true → find_first_of ["["%char; "]"%char] s = None.
Proof.
  induction s as [|c s IH]; [done|]. simpl. intros [Hc Hs]%andb_true_iff.
  apply name_char_spec in Hc as (_ & _ & _ & _ & -> & ->). simpl. by rewrite (IH Hs).
Qed.

Lemma set_plain (p : Parser) (section key value : string) :
  section = "" ∨ plain_name section = true → plain_name key = true →
  set p section key value =
    (Success, {| config := put_entry (config p) section key value;
                 strict_comments_ := strict_comments_ p |}).
Proof.
  intros Hs Hk. rewrite set_result, (plain_name_trim _ Hk).
  destruct (plain_name_spec _ Hk) as [Hne _].
  destruct key as [|c key]; [done|]. simpl empty. cbv iota.
  destruct Hs as [->|Hs]; [done|].
  rewrite (plain_name_trim _ Hs).
  destruct (plain_name_spec _ Hs) as [_ Hall]. by rewrite (plain_name_no_bracket _ Hall).
Qed.

Lemma set_all_portable (p : Parser) (calls : list (string * string * string)) :
  portable_entries (config p) → forallb plain_arguments calls = true →
  portable_entries (config (set_all p calls)).
Proof.
  revert p. induction calls as [|[[s k] v] calls IH]; intros p Hp; [done|].
  simpl. intros [Hcall Hcalls]%andb_true_iff.
  apply andb_true_iff in Hcall as [[Hs Hk]%andb_true_iff Hv].
  assert (s = "" ∨ plain_name s = true) as Hs'
    by (apply orb_true_iff in Hs as [He|?]; [left; by apply empty_true | by right]).
  apply IH; [|done]. rewrite (set_plain p s k v Hs' Hk). simpl.
  by apply portable_entries_put.
Qed.

(** X18: a [set] with a plain key, a plain or empty section name and a
    portable value succeeds, and a document built on a new parser by
    such calls alone survives the round trip: [save], then [load] into a
    new parser of the same mode, succeed and give the same parser. *)
Theorem set_then_save_then_load (strict : bool) (filename : string)
    (calls : list (string * string * string)) :
  forallb plain_arguments calls = true →
  (∀ (p : Parser) (section key value : string),
     plain_arguments (section, key, value) = true →
     (set p section key value).1 = Success) ∧
  save_then_load filename (set_all (new_parser strict) calls) =
    (Success, Success, set_all (new_parser strict) calls).
Proof.
  intros Hcalls. split.
  - intros p s k v [[Hs Hk]%andb_true_iff Hv]%andb_true_iff.
    rewrite set_plain; [done| |done].
    apply orb_true_iff in Hs as [He|?]; [left; by apply empty_true | by right].
  - set (p := set_all (new_parser strict) calls).
    assert (portable (config p) = true) as Hp.
    { apply portable_iff, set_all_portable; [|done].
      intros s pairs H. simpl in H. by rewrite lookup_empty in H. }
    pose proof (load_text_save_text (strict_comments_ p) (config p) Hp) as Hload.
    unfold save_then_load, save, load, no_files. simpl.
    rewrite decide_False by set_solver. simpl.
    rewrite lookup_insert_eq, Hload. by destruct p.
Qed.

Lemma set_then_save_then_load_witness :
  let calls := [("", "title", "a 'b' ; c"); ("net", "port", "8080");
                ("net", "host", "example.org"); ("net", "port", "9090")] in
  save_then_load "settings.ini" (set_all (new_parser false) calls) =
    (Success, Success, set_all (new_parser false) calls).
Proof.
  apply (proj2 (set_then_save_then_load false "settings.ini"
                  [("", "title", "a 'b' ; c"); ("net", "port", "8080");
                   ("net", "host", "example.org"); ("net", "port", "9090")]
                  eq_refl)).
Defined.

(** ** Where a comment starts *)

Lemma comment_scan_found (strict : bool) (line : string) (i : nat) (prev : option ascii)
    (inside_single_quote inside_double_quote : bool) (pos : nat) :
  comment_scan strict line i prev inside_single_quote inside_double_quote = Some pos →
  ∃ n ch, pos = i + n ∧ String.get n line = Some ch ∧ is_comment_char ch = true ∧
          (strict = true →
           (n = 0 ∧ (i = 0 ∨ from_option isspace true prev = true)) ∨
           (∃ m c, n = S m ∧ String.get m line = Some c ∧ isspace c = true)).
Proof.
  revert i prev inside_single_quote inside_double_quote pos.
  induction line as [|ch line IH]; intros i prev isq idq pos; [done|].
  simpl.
  set (idq' := if Ascii.eqb ch dquote && negb isq then negb idq else idq).
  set (isq' := if Ascii.eqb ch dquote && negb isq then isq
               else if Ascii.eqb ch squote && negb idq then negb isq else isq).
  assert (∀ pos', comment_scan strict line (S i) (Some ch) isq' idq' = Some pos' →
            ∃ n c, pos' = i + n ∧ String.get n (String ch line) = Some c ∧
                   is_comment_char c = true ∧
                   (strict = true →
                    (n = 0 ∧ (i = 0 ∨ from_option isspace true prev = true)) ∨
                    (∃ m c', n = S m ∧ String.get m (String ch line) = Some c' ∧
                             isspace c' = true))) as Hrec.
  { intros pos' Hpos'. destruct (IH _ _ _ _ _ Hpos') as (n & c & -> & Hget & Hc & Hstrict).
    exists (S n), c. split; [lia|]. split; [done|]. split; [done|].
    intros Hs. right. destruct (Hstrict Hs) as [[-> [?|Hsp]]|(m & c' & -> & Hm & Hc')].
    - lia.
    - exists 0, ch. done.
    - exists (S m), c'. done. }
  destruct (is_comment_char ch && negb isq' && negb idq') eqn:Hcomment; [|apply Hrec].
  destruct (strict && (0 <? i) && negb (from_option isspace true prev)) eqn:Hskip;
    [apply Hrec|].
  intros [= <-]. exists 0, ch. split; [lia|]. split; [done|].
  apply andb_true_iff in Hcomment as [[Hc _]%andb_true_iff _]. split; [done|].
  intros ->. left. split; [done|]. simpl in Hskip.
  apply andb_false_iff in Hskip as [Hi|Hp].
  - left. apply Nat.ltb_ge in Hi. lia.
  - right. by apply negb_false_iff in Hp.
Qed.

Lemma comment_scan_relaxed_first (line : string) (i : nat) (prev : option ascii)
    (inside_single_quote inside_double_quote : bool) (pos : nat) :
  comment_scan true line i prev inside_single_quote inside_double_quote = Some pos →
  ∃ earlier, comment_scan false line i prev inside_single_quote inside_double_quote
               = Some earlier ∧ earlier ≤ pos.
Proof.
  revert i prev inside_single_quote inside_double_quote pos.
  induction line as [|ch line IH]; intros i prev isq idq pos; [done|].
  simpl.
  set (idq' := if Ascii.eqb ch dquote && negb isq then negb idq else idq).
  set (isq' := if Ascii.eqb ch dquote && negb isq then isq
               else if Ascii.eqb ch squote && negb idq then negb isq else isq).
  destruct (is_comment_char ch && negb isq' && negb idq') eqn:Hcomment; [|apply IH].
  intros Hpos. exists i. split; [done|].
  destruct ((0 <? i) && negb (from_option isspace true prev)).
  - destruct (comment_scan_found _ _ _ _ _ _ _ Hpos) as (n & _ & -> & _). lia.
  - injection Hpos as <-. done.
Qed.

(** X19: a comment starts at a [;] or a [#] of the trimmed line, and in
    strict mode only at the start of the line or right after a
    whitespace character. *)
Theorem comment_starts_at_delimiter (strict : bool) (line : string) (pos : nat) :
  commentPos strict line = Some pos →
  (∃ ch, String.get pos line = Some ch ∧ is_comment_char ch = true) ∧
  (strict = true →
   pos = 0 ∨ ∃ before c, pos = S before ∧ String.get before line = Some c ∧
                         isspace c = true).
Proof.
  unfold commentPos. intros Hpos.
  destruct (comment_scan_found _ _ _ _ _ _ _ Hpos) as (n & ch & -> & Hget & Hch & Hstrict).
  simpl. split; [by exists ch|]. intros Hs.
  destruct (Hstrict Hs) as [[-> _]|(m & c & -> & Hm & Hc)]; [by left|].
  right. by exists m, c.
Qed.

Lemma comment_starts_at_delimiter_witness :
  (∃ ch, String.get 4 "a=1 ;c" = Some ch ∧ is_comment_char ch = true) ∧
  (true = true →
   4 = 0 ∨ ∃ before c, 4 = S before ∧ String.get before "a=1 ;c" = Some c ∧
                       isspace c = true).
Proof. apply (comment_starts_at_delimiter true "a=1 ;c" 4). reflexivity. Defined.

(** X20: what strict mode takes for a comment, relaxed mode takes for
    one too, starting there or earlier: relaxed mode never keeps more of
    a line than strict mode. *)
Theorem relaxed_comment_not_later (line : string) (pos : nat) :
  commentPos true line = Some pos →
  ∃ earlier, commentPos false line = Some earlier ∧ earlier ≤ pos.
Proof. apply comment_scan_relaxed_first. Qed.

Lemma relaxed_comment_not_later_witness :
  ∃ earlier, commentPos false "a=b#c ;d" = Some earlier ∧ earlier ≤ 6.
Proof. apply (relaxed_comment_not_later "a=b#c ;d" 6). reflexivity. Defined.
